(** * A first-fit [malloc]/[free] over [sbrk]: model and properties

    Shallow embedding of [malloc_free.c].  The file has three parts:
    the C data model (object sizes and integer conversions), the allocator
    state together with the operations [get_free_block], [malloc] and
    [free] written in a small state-and-failure monad, and the properties
    of those operations. *)

From stdpp Require Import gmap list.
From Stdlib Require Import ZArith Lia.

Open Scope Z_scope.

(* ===================================================================== *)
(** * 1. C data model *)
(* ===================================================================== *)

(** The source fixes no target.  Object sizes follow the two usual POSIX
    data models; everything below is parametric in the choice. *)
Inductive data_model := ILP32 | LP64.

Definition sizeof_size_t (dm : data_model) : Z :=
  match dm with ILP32 => 4 | LP64 => 8 end.

Definition sizeof_unsigned (dm : data_model) : Z := 4.

Definition sizeof_ptr (dm : data_model) : Z :=
  match dm with ILP32 => 4 | LP64 => 8 end.

(** Smallest multiple of [a] that is at least [n]. *)
Definition align_up (n a : Z) : Z := ((n + a - 1) / a) * a.

(** Layout of the anonymous struct [s] of [union header]:
    [size_t size; unsigned is_free; union header *next;]. *)
Definition offsetof_size (dm : data_model) : Z := 0.

Definition offsetof_is_free (dm : data_model) : Z :=
  align_up (offsetof_size dm + sizeof_size_t dm) (sizeof_unsigned dm).

Definition offsetof_next (dm : data_model) : Z :=
  align_up (offsetof_is_free dm + sizeof_unsigned dm) (sizeof_ptr dm).

Definition alignof_s (dm : data_model) : Z :=
  Z.max (sizeof_size_t dm) (Z.max (sizeof_unsigned dm) (sizeof_ptr dm)).

Definition sizeof_s (dm : data_model) : Z :=
  align_up (offsetof_next dm + sizeof_ptr dm) (alignof_s dm).

(** [typedef char ALIGN[16];] *)
Definition sizeof_ALIGN : Z := 16.

(** [union header { struct {...} s; ALIGN stub; }]: a union is as large as
    its largest member, rounded up to the union's alignment; [char] has
    alignment 1, so the alignment is that of [s]. *)
Definition sizeof_header_t (dm : data_model) : Z :=
  align_up (Z.max (sizeof_s dm) sizeof_ALIGN) (alignof_s dm).

(** [size_t] arithmetic is modulo [2 ^ size_t_bits]. *)
Definition size_t_bits (dm : data_model) : Z := 8 * sizeof_size_t dm.

Definition SIZE_MODULUS (dm : data_model) : Z := 2 ^ size_t_bits dm.

Definition wrap (dm : data_model) (z : Z) : Z := z mod SIZE_MODULUS dm.

(** Conversion of a [size_t] value to the [intptr_t] parameter of [sbrk]
    (two's complement). *)
Definition to_intptr (dm : data_model) (z : Z) : Z :=
  if z <? SIZE_MODULUS dm / 2 then z else z - SIZE_MODULUS dm.

(** [NULL] and the failure value [(void * ) -1] of [sbrk]. *)
Definition NULL : Z := 0.
Definition SBRK_FAILED : Z := -1.

(* ===================================================================== *)
(** * 2. Allocator state *)
(* ===================================================================== *)

(** The three fields of [union header], reached in the source as
    [h->s.size], [h->s.is_free] and [h->s.next].  [is_free] only ever
    holds 0 or 1 and is only tested for truth. *)
Record header_t := Header {
  s_size : Z;
  s_is_free : bool;
  s_next : Z
}.

Inductive lock_event := Locked | Unlocked.

(** Process state seen by the allocator: the globals [head] and [tail],
    the header records written so far (by address), the program break
    with the bound beyond which the environment refuses to move it, and
    the history of [global_malloc_lock].  Records are kept when the break
    is lowered: the C code never clears them.

    A record is kept whole under its address; its bytes are not
    represented.  Records written less than a header size apart would
    share bytes in memory and are independent here, and payload bytes are
    not represented at all.  A store to a field of one record therefore
    leaves every other field and every other record as it was, which is
    what the C code does exactly when the headers involved share no byte.
    The concrete runs below keep all records at least a header size
    apart (in one ILP32 run, 12 bytes apart, which is the extent of the
    three fields: [fields_apart]), and the general properties that depend
    on what a store leaves alone assume it of the state they start from
    ([separated], [ends_below] and [tail_clear] in section 4). *)
Record state := State {
  head : Z;
  tail : Z;
  heap : gmap Z header_t;
  brk : Z;
  brk_limit : Z;
  lock_log : list lock_event
}.

Definition set_head (v : Z) (st : state) : state :=
  State v (tail st) (heap st) (brk st) (brk_limit st) (lock_log st).

Definition set_tail (v : Z) (st : state) : state :=
  State (head st) v (heap st) (brk st) (brk_limit st) (lock_log st).

Definition set_heap (m : gmap Z header_t) (st : state) : state :=
  State (head st) (tail st) m (brk st) (brk_limit st) (lock_log st).

Definition set_brk (v : Z) (st : state) : state :=
  State (head st) (tail st) (heap st) v (brk_limit st) (lock_log st).

Definition log_event (e : lock_event) (st : state) : state :=
  State (head st) (tail st) (heap st) (brk st) (brk_limit st)
        (lock_log st ++ [e]).

(** ** The monad

    A computation either yields a value and a new state, or has no defined
    outcome ([None]): it dereferences [NULL] or an address where no header
    was ever written, or it loops forever. *)
Definition M (A : Type) : Type := state -> option (A * state).

Definition ret {A} (a : A) : M A := fun st => Some (a, st).

Definition bind {A B} (m : M A) (k : A -> M B) : M B :=
  fun st => match m st with
            | Some (a, st') => k a st'
            | None => None
            end.

Definition undefined {A} : M A := fun _ => None.

Definition gets {A} (f : state -> A) : M A := fun st => Some (f st, st).

Definition modify (f : state -> state) : M unit := fun st => Some (tt, f st).

Declare Scope alloc_scope.
Delimit Scope alloc_scope with alloc.
Notation "x <- m ;; k" := (bind m (fun x => k))
  (at level 100, m at next level, right associativity) : alloc_scope.
Notation "m ;;; k" := (bind m (fun _ => k))
  (at level 100, right associativity) : alloc_scope.
Open Scope alloc_scope.

(** [pthread_mutex_lock] / [pthread_mutex_unlock] on the global lock. *)
Definition pthread_mutex_lock : M unit := modify (log_event Locked).
Definition pthread_mutex_unlock : M unit := modify (log_event Unlocked).

(** Reading the record a header pointer designates. *)
Definition load (a : Z) : M header_t :=
  fun st => if a =? NULL then None
            else match heap st !! a with
                 | Some h => Some (h, st)
                 | None => None
                 end.

(** Writing a whole record (the three initialising stores of [malloc]).
    The other records stay as they are: in memory, those that share no
    byte with the header at [a]. *)
Definition store (a : Z) (h : header_t) : M unit :=
  fun st => if a =? NULL then None
            else Some (tt, set_heap (<[a := h]> (heap st)) st).

(** [a->s.is_free = b] and [a->s.next = n] on an existing record.  The
    other fields of the record stay as they are, and so do the other
    records: in memory, those that share no byte with the field. *)
Definition store_is_free (a : Z) (b : bool) : M unit :=
  h <- load a ;; store a (Header (s_size h) b (s_next h)).

Definition store_next (a : Z) (n : Z) : M unit :=
  h <- load a ;; store a (Header (s_size h) (s_is_free h) n).

(** ** The heap growth primitive *)

(** Modelled from the spec: when the environment moves the break.  It
    always reports or lowers it, and refuses to raise it beyond
    [brk_limit] (insufficient address space). *)
Definition sbrk_grants (incr : Z) (st : state) : bool :=
  (incr <=? 0) || (brk st + incr <=? brk_limit st).

(** Modelled from the spec: [sbrk], the library call behind the heap
    growth primitive, as the spec and the header comment of the source
    describe it: [sbrk 0] returns the break, [sbrk x] moves the break by
    [x] and returns the previous break, and failure changes nothing and
    returns [(void * ) -1]. *)
Definition sbrk (incr : Z) : M Z :=
  fun st => if sbrk_grants incr st
            then Some (brk st, set_brk (brk st + incr) st)
            else Some (SBRK_FAILED, st).

(* ===================================================================== *)
(** * 3. The allocator *)
(* ===================================================================== *)

(** [malloc] as the file gives it first: the request goes straight to
    [sbrk], and the block is the old break.  [size] is a [size_t] value;
    [sbrk] takes it as [intptr_t]. *)
Module Naive.

Definition malloc (dm : data_model) (size : Z) : M Z :=
  block <- sbrk (to_intptr dm size) ;;
  if negb (block =? SBRK_FAILED) then ret block else ret NULL.

End Naive.

Section Allocator.

Variable dm : data_model.

(** The file is a tutorial that restates [malloc] and the header type as
    it goes; the definitions modelled are the last ones: [union header],
    [malloc] over the list, [get_free_block] and [free].

    The [while (curr)] loop of [get_free_block].  The source declares
    [curr] as [head_ *curr] and advances with [curr->next]; these are read
    as [header_t *curr] and [curr->s.next].  The loop does not write, so
    the records are a parameter.  [fuel] bounds the number of tests of
    [curr]. *)
Fixpoint get_free_block_loop (fuel : nat) (m : gmap Z header_t)
    (sz curr : Z) : option Z :=
  match fuel with
  | O => None
  | S fuel' =>
      if curr =? NULL then Some NULL
      else match m !! curr with
           | None => None
           | Some c =>
               if s_is_free c && (sz <=? s_size c) then Some curr
               else get_free_block_loop fuel' m sz (s_next c)
           end
  end.

(** A list without a cycle has at most as many records as the store, so
    one more test than that is enough; a scan that needs more never
    ends. *)
Definition get_free_block (sz : Z) : M Z :=
  fun st =>
    match get_free_block_loop (S (size (heap st))) (heap st) sz (head st) with
    | Some r => Some (r, st)
    | None => None
    end.

Definition malloc (size : Z) : M Z :=
  if size =? 0 then ret NULL
  else
    pthread_mutex_lock ;;;
    head_ <- get_free_block size ;;
    if negb (head_ =? NULL) then
      store_is_free head_ false ;;;
      pthread_mutex_unlock ;;;
      ret (head_ + sizeof_header_t dm)
    else
      (* [sizeof(head_)]: [head_] is declared [header_t *head_] *)
      let total_sz := wrap dm (sizeof_ptr dm + size) in
      block <- sbrk (to_intptr dm total_sz) ;;
      if block =? SBRK_FAILED then
        pthread_mutex_unlock ;;;
        ret NULL
      else
        let head_ := block in
        store head_ (Header size false NULL) ;;;
        hd <- gets head ;;
        (if hd =? NULL then modify (set_head head_) else ret tt) ;;;
        tl <- gets tail ;;
        (if negb (tl =? NULL) then store_next tl head_ else ret tt) ;;;
        modify (set_tail head_) ;;;
        pthread_mutex_unlock ;;;
        ret (head_ + sizeof_header_t dm).

(** The [while (tmp)] loop of [free]. *)
Fixpoint free_loop (fuel : nat) (tmp : Z) : M unit :=
  match fuel with
  | O => undefined
  | S fuel' =>
      if tmp =? NULL then ret tt
      else
        t <- load tmp ;;
        tl <- gets tail ;;
        (if s_next t =? tl then
           store_next tmp NULL ;;;
           modify (set_tail tmp)
         else ret tt) ;;;
        t' <- load tmp ;;
        free_loop fuel' (s_next t')
  end.

Definition free (block : Z) : M unit :=
  if block =? NULL then ret tt
  else
    pthread_mutex_lock ;;;
    let header := block - sizeof_header_t dm in
    programbreak <- sbrk 0 ;;
    h <- load header ;;
    if block + s_size h =? programbreak then
      hd <- gets head ;;
      tl <- gets tail ;;
      (if hd =? tl then
         modify (set_head NULL) ;;;
         modify (set_tail NULL)
       else
         n <- gets (fun st => size (heap st)) ;;
         free_loop (S n) hd) ;;;
      h' <- load header ;;
      _ <- sbrk (to_intptr dm (wrap dm (0 - sizeof_header_t dm - s_size h'))) ;;
      pthread_mutex_unlock
    else
      store_is_free header true ;;;
      pthread_mutex_unlock.

End Allocator.

(** The process before the first call: no list, nothing written, the
    break at [base]. *)
Definition initial (base limit : Z) : state :=
  State NULL NULL ∅ base limit [].


(** ** Clients

    A client issues calls and keeps the pointers it holds: those [malloc]
    returned and it has not yet passed to [free].  Freeing a pointer it
    does not hold is a client error and has no defined outcome. *)
Inductive call := Malloc (size : Z) | Free (block : Z).

Fixpoint run (dm : data_model) (cs : list call) (live : list Z) : M (list Z) :=
  match cs with
  | [] => ret live
  | Malloc n :: cs' =>
      p <- malloc dm n ;;
      run dm cs' (if p =? NULL then live else p :: live)
  | Free p :: cs' =>
      if bool_decide (p ∈ live) then
        free dm p ;;;
        run dm cs' (filter (fun q => q ≠ p) live)
      else undefined
  end.

(** Payload of the block behind pointer [p]: from [p], that is the header
    address plus the header size, for [s_size] bytes. *)
Definition payload (dm : data_model) (st : state) (p : Z) : option (Z * Z) :=
  match heap st !! (p - sizeof_header_t dm) with
  | Some h => Some (p, p + s_size h)
  | None => None
  end.

(** States a client can bring about from an empty list, whatever it
    passes to the two entry points. *)
Inductive reachable (dm : data_model) : state -> Prop :=
| reachable_empty st :
    head st = NULL -> tail st = NULL -> reachable dm st
| reachable_malloc st size p st' :
    reachable dm st -> malloc dm size st = Some (p, st') -> reachable dm st'
| reachable_free st block st' :
    reachable dm st -> free dm block st = Some (tt, st') -> reachable dm st'.

(* ===================================================================== *)
(** * 4. Vocabulary of the properties *)
(* ===================================================================== *)

(** ** The block list *)

(** [chain m a l]: following [s_next] from [a] through the records [m]
    visits exactly the addresses [l] and then reaches [NULL]. *)
Inductive chain (m : gmap Z header_t) : Z -> list Z -> Prop :=
| chain_nil : chain m NULL []
| chain_cons a h l :
    a <> NULL -> m !! a = Some h -> chain m (s_next h) l -> chain m a (a :: l).

(** The test [get_free_block] applies to a record. *)
Definition fits (sz : Z) (c : header_t) : bool :=
  s_is_free c && (sz <=? s_size c).

(** [r] is the first-fit answer for the list [l]: [NULL] when no record
    of [l] passes the test, and otherwise the first record that does. *)
Definition first_fit (m : gmap Z header_t) (sz : Z) (l : list Z) (r : Z) : Prop :=
  (r = NULL /\ forall a c, a ∈ l -> m !! a = Some c -> fits sz c = false)
  \/ (exists l1 l2 c,
        l = l1 ++ r :: l2 /\ r <> NULL /\ m !! r = Some c /\ fits sz c = true /\
        forall a c', a ∈ l1 -> m !! a = Some c' -> fits sz c' = false).

(** The list of a state: the chain from [head], ending in [tail]. *)
Definition block_list (st : state) (l : list Z) : Prop :=
  chain (heap st) (head st) l /\ tail st = List.last l NULL.

(** The records of [l] ahead of [x] (all of [l] when [x] is not in it). *)
Fixpoint records_before (x : Z) (l : list Z) : list Z :=
  match l with
  | [] => []
  | a :: l' => if decide (a = x) then [] else a :: records_before x l'
  end.

(** ** States after a call *)

(** State after [malloc] reuses the record [c] at [h]. *)
Definition reused (h : Z) (c : header_t) (st : state) : state :=
  log_event Unlocked
    (set_heap (<[h := Header (s_size c) false (s_next c)]> (heap st))
       (log_event Locked st)).

(** State after [malloc] carves a new block at the break. *)
Definition grown (dm : data_model) (size : Z) (st : state) : state :=
  let block := brk st in
  let m1 := <[block := Header size false NULL]> (heap st) in
  let m2 := if tail st =? NULL then m1
            else match m1 !! tail st with
                 | Some t => <[tail st := Header (s_size t) (s_is_free t) block]> m1
                 | None => m1
                 end in
  State (if head st =? NULL then block else head st) block m2
        (brk st + to_intptr dm (wrap dm (sizeof_ptr dm + size)))
        (brk_limit st) ((lock_log st ++ [Locked]) ++ [Unlocked]).

(** State after [free] flags the record [h] at [a] as free. *)
Definition marked (a : Z) (h : header_t) (st : state) : state :=
  log_event Unlocked
    (set_heap (<[a := Header (s_size h) true (s_next h)]> (heap st))
       (log_event Locked st)).

(** The list is empty through both globals at once. *)
Definition head_tail_agree (st : state) : Prop :=
  head st = NULL <-> tail st = NULL.

(** ** Reuse, as a property of all reachable states *)

(** The reuse property in its unconditional form: in any reachable state,
    [malloc N], [free] of the result and [malloc M] with [M <= N] give the
    same pointer again without raising the break. *)
Definition reuse_unconditional (dm : data_model) : Prop :=
  forall st N M p st1 st2 p' st3,
    reachable dm st -> 0 < N -> 0 < M <= N ->
    malloc dm N st = Some (p, st1) -> p <> NULL ->
    free dm p st1 = Some (tt, st2) ->
    malloc dm M st2 = Some (p', st3) ->
    p' = p /\ brk st3 <= brk st2.

(** The state a client leaves behind. *)
Definition state_after (dm : data_model) (cs : list call) (st : state) : state :=
  match run dm cs [] st with
  | Some (_, st') => st'
  | None => st
  end.

(** ** Records, clients and locks *)

(** [m'] has the records of [m], each with the size and the flag it has
    in [m]; only links may differ. *)
Definition relinked (m m' : gmap Z header_t) : Prop :=
  forall a, match m !! a with
            | Some c => exists c', m' !! a = Some c' /\
                                   s_size c' = s_size c /\
                                   s_is_free c' = s_is_free c
            | None => m' !! a = None
            end.

(** What a call appends to the history of the lock. *)
Definition lock_use (c : call) : list lock_event :=
  match c with
  | Malloc n => if n =? 0 then [] else [Locked; Unlocked]
  | Free p => if p =? NULL then [] else [Locked; Unlocked]
  end.

(** ** Headers that share no byte

    A header at [a] occupies the bytes from [a] up to
    [a + sizeof_header_t]; each of its three fields lies inside them
    ([fields_within_header] below).  The C code writes one field at a
    time, so a store through one header changes another header only if
    the two share a byte.  The predicates below say that they do not. *)

(** No two headers of [m] share a byte. *)
Definition separated (dm : data_model) (m : gmap Z header_t) : Prop :=
  forall a b, is_Some (m !! a) -> is_Some (m !! b) -> a <> b ->
              sizeof_header_t dm <= Z.abs (a - b).

(** No two headers of [m] share a byte of a field: the fields take the
    first [sizeof_s] bytes of a header, which is less than the header
    under ILP32 (12 of 16 bytes; the rest belongs to the [ALIGN] member,
    which the code never accesses). *)
Definition fields_apart (dm : data_model) (m : gmap Z header_t) : Prop :=
  forall a b, is_Some (m !! a) -> is_Some (m !! b) -> a <> b ->
              sizeof_s dm <= Z.abs (a - b).

(** Every header of [m] ends at or below [b]: a header written at [b]
    shares no byte with any of them. *)
Definition ends_below (dm : data_model) (m : gmap Z header_t) (b : Z) : Prop :=
  forall a, is_Some (m !! a) -> a + sizeof_header_t dm <= b.

(** The header [tail] points to shares no byte with a header written at
    the break: the store [tail->s.next = head_] of [malloc] leaves the
    new header as it was initialised. *)
Definition tail_clear (dm : data_model) (st : state) : Prop :=
  tail st = NULL \/ sizeof_header_t dm <= Z.abs (tail st - brk st).

(** ** Requests that leave room for a header

    [malloc] moves the break by pointer size + request and writes a
    whole header at the old break.  A request of at least header size -
    pointer size bytes therefore leaves the next header clear of this
    one. *)

(** Requests that large, whose sum with a pointer stays below half the
    address space. *)
Definition roomy (dm : data_model) (c : call) : Prop :=
  match c with
  | Malloc n => sizeof_header_t dm - sizeof_ptr dm <= n /\
                sizeof_ptr dm + n < SIZE_MODULUS dm / 2
  | Free _ => True
  end.

(** No block ends at the break: whatever pointer [free] is given, it does
    not take the branch that lowers the break. *)
Definition no_block_at_break (dm : data_model) (st : state) : Prop :=
  forall a c, heap st !! a = Some c ->
              a + sizeof_header_t dm + s_size c <> brk st.

(** Every record is that of a roomy request, and the break is where
    [malloc] left it when it carved the record, or at least a header
    size further. *)
Definition carved_in_order (dm : data_model) (st : state) : Prop :=
  forall a c, heap st !! a = Some c ->
    sizeof_header_t dm - sizeof_ptr dm <= s_size c /\
    (brk st = a + sizeof_ptr dm + s_size c \/
     a + sizeof_ptr dm + s_size c + sizeof_header_t dm <= brk st).

(** A list of three blocks of 16, 32 and 16 bytes, the second one free,
    as the calls [malloc 16], [malloc 32], [malloc 16], [free 4144] leave
    it under LP64 from an empty list at 4096. *)
Definition three_blocks : state :=
  State 4096 4160
        (<[4096 := Header 16 false 4120]>
           (<[4120 := Header 32 true 4160]>
              (<[4160 := Header 16 false NULL]> ∅)))
        4184 65536 [].

(* ===================================================================== *)
(** * 5. Properties *)
(* ===================================================================== *)

(** ** Sizes and conversions *)

Example align_up_12_8 : align_up 12 8 = 16.
Proof. reflexivity. Qed.

Example wrap_overflow : wrap ILP32 (8 + 4294967295) = 7.
Proof. reflexivity. Qed.

Example to_intptr_negative : to_intptr ILP32 (wrap ILP32 (0 - 16 - 8)) = -24.
Proof. reflexivity. Qed.

Example struct_offsets_LP64 :
  (offsetof_size LP64, offsetof_is_free LP64, offsetof_next LP64, sizeof_s LP64)
  = (0, 8, 16, 24).
Proof. reflexivity. Qed.

Example struct_offsets_ILP32 :
  (offsetof_size ILP32, offsetof_is_free ILP32, offsetof_next ILP32, sizeof_s ILP32)
  = (0, 4, 8, 12).
Proof. reflexivity. Qed.

Lemma sizeof_header_t_LP64 : sizeof_header_t LP64 = 24.
Proof. reflexivity. Qed.

Lemma sizeof_header_t_ILP32 : sizeof_header_t ILP32 = 16.
Proof. reflexivity. Qed.

Lemma sizeof_ptr_lt_header dm : 0 < sizeof_ptr dm < sizeof_header_t dm.
Proof. destruct dm; vm_compute; split; reflexivity. Qed.

(** Each field of a header lies inside the header, after the field
    before it. *)
Lemma fields_within_header dm :
  offsetof_size dm + sizeof_size_t dm <= offsetof_is_free dm /\
  offsetof_is_free dm + sizeof_unsigned dm <= offsetof_next dm /\
  offsetof_next dm + sizeof_ptr dm <= sizeof_header_t dm.
Proof. destruct dm; vm_compute; repeat split; discriminate. Qed.

Lemma SIZE_MODULUS_pos dm : 0 < SIZE_MODULUS dm / 2 /\ SIZE_MODULUS dm = 2 * (SIZE_MODULUS dm / 2).
Proof. destruct dm; vm_compute; split; reflexivity. Qed.

(** ** Headers of a store given by its insertions *)

(** One case for each address of a store written as a series of
    insertions into the empty store. *)
Ltac header_cases H :=
  first [ apply lookup_insert_is_Some in H as [<- | [_ H]]; [| header_cases H]
        | rewrite lookup_empty in H; destruct H as [? H]; discriminate H ].

Ltac solve_separated :=
  let a := fresh "a" in
  let b := fresh "b" in
  let Ha := fresh "Ha" in
  let Hb := fresh "Hb" in
  let Hne := fresh "Hne" in
  intros a b Ha Hb Hne; cbn [heap] in Ha, Hb;
  header_cases Ha; header_cases Hb;
  first [ congruence | vm_compute; discriminate ].

Ltac solve_ends_below :=
  let a := fresh "a" in
  let Ha := fresh "Ha" in
  intros a Ha; cbn [heap] in Ha; header_cases Ha; vm_compute; discriminate.

Lemma three_blocks_separated : separated LP64 (heap three_blocks).
Proof. unfold three_blocks. solve_separated. Qed.

Lemma three_blocks_ends_below :
  ends_below LP64 (heap three_blocks) (brk three_blocks).
Proof. unfold three_blocks. solve_ends_below. Qed.

Lemma three_blocks_tail_clear : tail_clear LP64 three_blocks.
Proof. right. vm_compute. discriminate. Qed.

(** ** Running monadic code *)

Lemma bind_Some {A B} (m : M A) (k : A -> M B) st r :
  bind m k st = Some r <-> exists a st', m st = Some (a, st') /\ k a st' = Some r.
Proof.
  unfold bind. destruct (m st) as [[a st']|]; split.
  - intros H. exists a, st'. auto.
  - intros (a' & st'' & [= -> ->] & H). exact H.
  - discriminate.
  - intros (a' & st'' & [=] & _).
Qed.

Lemma bind_run {A B} (m : M A) (k : A -> M B) st a st' :
  m st = Some (a, st') -> bind m k st = k a st'.
Proof. unfold bind. intros ->. reflexivity. Qed.

(** [run_with H] executes the first action of a sequence, whose outcome
    [H] gives. *)
Ltac run_with H := rewrite (bind_run _ _ _ _ _ H); cbv beta.

Lemma load_Some a st h st' :
  load a st = Some (h, st') <-> a <> NULL /\ heap st !! a = Some h /\ st' = st.
Proof.
  unfold load. destruct (Z.eqb_spec a NULL).
  - split; [discriminate | intros [? _]; contradiction].
  - destruct (heap st !! a) as [h'|]; split.
    + intros [= -> ->]. auto.
    + intros (_ & [= ->] & ->). reflexivity.
    + discriminate.
    + intros (_ & [=] & _).
Qed.

Lemma load_run a st h :
  a <> NULL -> heap st !! a = Some h -> load a st = Some (h, st).
Proof. intros. apply load_Some. auto. Qed.

Lemma store_run a h st :
  a <> NULL -> store a h st = Some (tt, set_heap (<[a := h]> (heap st)) st).
Proof. unfold store. intros Ha. destruct (Z.eqb_spec a NULL); [contradiction | reflexivity]. Qed.

Lemma store_Some a h st u st' :
  store a h st = Some (u, st') -> a <> NULL /\ st' = set_heap (<[a := h]> (heap st)) st.
Proof.
  unfold store. destruct (Z.eqb_spec a NULL); [discriminate |].
  intros [= <- <-]. auto.
Qed.

Lemma store_is_free_Some a b st u st' :
  store_is_free a b st = Some (u, st') ->
  exists h, a <> NULL /\ heap st !! a = Some h /\
            st' = set_heap (<[a := Header (s_size h) b (s_next h)]> (heap st)) st.
Proof.
  unfold store_is_free. intros H. apply bind_Some in H as (h & st1 & Hl & Hs).
  apply load_Some in Hl as (Ha & Hh & ->). apply store_Some in Hs as [_ ->].
  eauto.
Qed.

Lemma store_is_free_run a b st h :
  a <> NULL -> heap st !! a = Some h ->
  store_is_free a b st =
    Some (tt, set_heap (<[a := Header (s_size h) b (s_next h)]> (heap st)) st).
Proof.
  intros Ha Hh. unfold store_is_free.
  rewrite (bind_run _ _ _ _ _ (load_run _ _ _ Ha Hh)). apply store_run, Ha.
Qed.

Lemma store_next_Some a n st u st' :
  store_next a n st = Some (u, st') ->
  exists h, a <> NULL /\ heap st !! a = Some h /\
            st' = set_heap (<[a := Header (s_size h) (s_is_free h) n]> (heap st)) st.
Proof.
  unfold store_next. intros H. apply bind_Some in H as (h & st1 & Hl & Hs).
  apply load_Some in Hl as (Ha & Hh & ->). apply store_Some in Hs as [_ ->].
  eauto.
Qed.

Lemma store_next_run a n st h :
  a <> NULL -> heap st !! a = Some h ->
  store_next a n st =
    Some (tt, set_heap (<[a := Header (s_size h) (s_is_free h) n]> (heap st)) st).
Proof.
  intros Ha Hh. unfold store_next.
  rewrite (bind_run _ _ _ _ _ (load_run _ _ _ Ha Hh)). apply store_run, Ha.
Qed.

Lemma get_free_block_Some sz st r st' :
  get_free_block sz st = Some (r, st') ->
  st' = st /\
  get_free_block_loop (S (size (heap st))) (heap st) sz (head st) = Some r.
Proof.
  unfold get_free_block.
  destruct (get_free_block_loop _ _ _ _) as [r'|]; [|discriminate].
  intros [= -> ->]. auto.
Qed.

(** The search reads [head] and the records only. *)
Lemma get_free_block_frame sz st st2 r :
  head st2 = head st -> heap st2 = heap st ->
  get_free_block sz st = Some (r, st) ->
  get_free_block sz st2 = Some (r, st2).
Proof.
  intros Hh Hm H. apply get_free_block_Some in H as [_ H].
  unfold get_free_block. rewrite Hh, Hm, H. reflexivity.
Qed.

(** A refused [sbrk] changes nothing; a granted one moves the break. *)
Lemma sbrk_refused incr st :
  sbrk_grants incr st = false -> sbrk incr st = Some (SBRK_FAILED, st).
Proof. unfold sbrk. intros ->. reflexivity. Qed.

Lemma sbrk_granted incr st :
  sbrk_grants incr st = true -> sbrk incr st = Some (brk st, set_brk (brk st + incr) st).
Proof. unfold sbrk. intros ->. reflexivity. Qed.

Lemma sbrk_Some incr st r st' :
  sbrk incr st = Some (r, st') ->
  (sbrk_grants incr st = true /\ r = brk st /\ st' = set_brk (brk st + incr) st)
  \/ (sbrk_grants incr st = false /\ r = SBRK_FAILED /\ st' = st).
Proof.
  unfold sbrk. destruct (sbrk_grants incr st); intros [= <- <-]; auto.
Qed.

Lemma sbrk_query st : sbrk 0 st = Some (brk st, st).
Proof.
  unfold sbrk, sbrk_grants, set_brk. simpl. rewrite Z.add_0_r. destruct st; reflexivity.
Qed.

(** ** Calls that do nothing, and running out of memory *)

(** C9: [malloc 0] returns [NULL] and [free NULL] returns, each leaving
    the whole state as it was: the break, [head], [tail], every header
    record, and the lock history (the lock is never taken). *)
Theorem zero_size_and_null_are_noops dm st :
  malloc dm 0 st = Some (NULL, st) /\ free dm NULL st = Some (tt, st).
Proof. split; reflexivity. Qed.

(** C8: for a non-zero size, when the search finds no block and the
    environment refuses the growth [malloc] asks for, [malloc] returns
    [NULL] and [head], [tail], the header records and the break are as
    before. *)
Theorem malloc_out_of_memory dm st size :
  0 < size ->
  get_free_block size st = Some (NULL, st) ->
  sbrk_grants (to_intptr dm (wrap dm (sizeof_ptr dm + size))) st = false ->
  exists st', malloc dm size st = Some (NULL, st') /\
              head st' = head st /\ tail st' = tail st /\
              heap st' = heap st /\ brk st' = brk st.
Proof.
  intros Hpos Hmiss Hfail.
  unfold malloc. destruct (Z.eqb_spec size 0) as [->|_]; [lia|].
  unfold pthread_mutex_lock, pthread_mutex_unlock.
  set (st1 := log_event Locked st).
  assert (Hg : get_free_block size st1 = Some (NULL, st1))
    by (apply (get_free_block_frame size st); auto).
  assert (Hs : sbrk (to_intptr dm (wrap dm (sizeof_ptr dm + size))) st1
               = Some (SBRK_FAILED, st1))
    by (apply sbrk_refused; exact Hfail).
  run_with (eq_refl : modify (log_event Locked) st = Some (tt, st1)).
  run_with Hg. change (negb (NULL =? NULL)) with false. cbv iota.
  run_with Hs. simpl. eexists. split; [reflexivity|]. simpl. auto.
Qed.

Lemma malloc_out_of_memory_witness :
  exists st', malloc LP64 16 (initial 4096 4100) = Some (NULL, st') /\
              head st' = NULL /\ tail st' = NULL /\
              heap st' = ∅ /\ brk st' = 4096.
Proof.
  apply (malloc_out_of_memory LP64 (initial 4096 4100) 16);
    [lia | reflexivity | reflexivity].
Defined.

(** ** What a call to [malloc] can do *)

Lemma get_free_block_frame_inv sz st st2 r st2' :
  head st2 = head st -> heap st2 = heap st ->
  get_free_block sz st2 = Some (r, st2') ->
  st2' = st2 /\ get_free_block sz st = Some (r, st).
Proof.
  intros Hh Hm H. apply get_free_block_Some in H as [-> H]. split; [reflexivity|].
  unfold get_free_block. rewrite <- Hh, <- Hm, H. reflexivity.
Qed.

Lemma malloc_inv dm size st p st' :
  malloc dm size st = Some (p, st') ->
  (size = 0 /\ p = NULL /\ st' = st)
  \/ (exists h c, size <> 0 /\ h <> NULL /\
        get_free_block size st = Some (h, st) /\ heap st !! h = Some c /\
        p = h + sizeof_header_t dm /\ st' = reused h c st)
  \/ (size <> 0 /\ get_free_block size st = Some (NULL, st) /\ p = NULL /\
        head st' = head st /\ tail st' = tail st /\ heap st' = heap st)
  \/ (size <> 0 /\ get_free_block size st = Some (NULL, st) /\
        brk st <> NULL /\ brk st <> SBRK_FAILED /\
        sbrk_grants (to_intptr dm (wrap dm (sizeof_ptr dm + size))) st = true /\
        p = brk st + sizeof_header_t dm /\ st' = grown dm size st).
Proof.
  unfold malloc. destruct (Z.eqb_spec size 0) as [->|Hnz].
  { intros [= <- <-]. left. auto. }
  intros H. right.
  apply bind_Some in H as ([] & st1 & [= <-] & H).
  apply bind_Some in H as (h & st1' & Hg & H).
  apply get_free_block_frame_inv with (st := st) in Hg as [-> Hg]; [|reflexivity..].
  destruct (Z.eqb_spec h NULL) as [->|Hh]; simpl negb in H; cbv iota in H.
  - right.
    apply bind_Some in H as (block & st2 & Hs & H).
    apply sbrk_Some in Hs as [(Hgr & -> & ->) | (Hgr & -> & ->)].
    + change (brk (log_event Locked st)) with (brk st) in H.
      destruct (Z.eqb_spec (brk st) SBRK_FAILED) as [Hb|Hb].
      * left. apply bind_Some in H as ([] & st3 & [= <-] & [= <- <-]).
        simpl. repeat split; auto.
      * right.
        apply bind_Some in H as ([] & st3 & Hst & H).
        apply store_Some in Hst as [Hbn ->].
        apply bind_Some in H as (hd & st4 & [= <- <-] & H).
        apply bind_Some in H as ([] & st5 & Hhd & H).
        apply bind_Some in H as (tl & st6 & [= <- <-] & H).
        apply bind_Some in H as ([] & st7 & Htl & H).
        apply bind_Some in H as ([] & st8 & [= <-] & H).
        apply bind_Some in H as ([] & st9 & [= <-] & [= <- <-]).
        simpl in Hb, Hbn. repeat split; auto.
        unfold grown. simpl in Hhd.
        destruct (Z.eqb_spec (head st) NULL) as [Hhn|Hhn];
          injection Hhd as <-; simpl in Htl;
          destruct (Z.eqb_spec (tail st) NULL) as [Htn|Htn]; simpl negb in Htl;
          cbv iota in Htl.
        all: try (injection Htl as <-; reflexivity).
        all: apply store_next_Some in Htl as (t & _ & Ht & ->);
          simpl in Ht; simpl; rewrite Ht; reflexivity.
    + left. change (SBRK_FAILED =? SBRK_FAILED) with true in H. cbv iota in H.
      apply bind_Some in H as ([] & st3 & [= <-] & [= <- <-]).
      simpl. repeat split; auto.
  - left. apply bind_Some in H as ([] & st2 & Hs & H).
    apply store_is_free_Some in Hs as (c & _ & Hc & ->).
    apply bind_Some in H as ([] & st3 & [= <-] & [= <- <-]).
    exists h, c. simpl in Hc. repeat split; auto.
Qed.

(** On a miss that is granted, the break moves by what [malloc] passes to
    [sbrk]: the size of a pointer plus the request, as [size_t] and then
    as [intptr_t]. *)
Lemma malloc_carves_pointer_size dm size st p st' :
  malloc dm size st = Some (p, st') -> p <> NULL ->
  get_free_block size st = Some (NULL, st) ->
  brk st' = brk st + to_intptr dm (wrap dm (sizeof_ptr dm + size)) /\
  p = brk st + sizeof_header_t dm.
Proof.
  intros H Hp Hmiss.
  apply malloc_inv in H
    as [(_ & E & _) | [(h & c & _ & Hh & Hg & _)
       | [(_ & _ & E & _) | (_ & _ & _ & _ & _ & -> & ->)]]];
    [contradiction | congruence | contradiction | auto].
Qed.

(** A block carved at the break never ends at the new break: the break
    has moved by a pointer size plus the request, the block ends a header
    size plus the request above the old break. *)
Lemma carved_block_not_at_break dm size st :
  0 <= size -> sizeof_ptr dm + size < SIZE_MODULUS dm / 2 ->
  brk st + sizeof_header_t dm + size <> brk (grown dm size st).
Proof.
  intros H0 H1. unfold grown. simpl.
  destruct (sizeof_ptr_lt_header dm) as [HP HH].
  destruct (SIZE_MODULUS_pos dm) as [Hhalf HM].
  unfold to_intptr, wrap.
  generalize dependent (SIZE_MODULUS dm). intros M H1 Hhalf HM.
  generalize dependent (sizeof_header_t dm). intros H HH.
  generalize dependent (sizeof_ptr dm). intros P HP H1 HH.
  rewrite Z.mod_small by lia.
  destruct (Z.ltb_spec (P + size) (M / 2)); lia.
Qed.

(** ** What a call to [free] can do *)

Lemma free_loop_globals fuel tmp st st' :
  free_loop fuel tmp st = Some (tt, st') ->
  head st' = head st /\ brk st' = brk st /\ brk_limit st' = brk_limit st /\
  lock_log st' = lock_log st /\
  (tail st' = tail st \/ tail st' <> NULL).
Proof.
  revert tmp st. induction fuel as [|fuel IH]; intros tmp st H; [discriminate|].
  simpl in H. destruct (Z.eqb_spec tmp NULL) as [->|Htmp].
  { injection H as <-. repeat split; auto. }
  apply bind_Some in H as (t & st1 & Hl & H).
  apply load_Some in Hl as (_ & Ht & ->).
  apply bind_Some in H as (tl & st1 & [= <- <-] & H).
  apply bind_Some in H as ([] & st2 & Hup & H).
  apply bind_Some in H as (t' & st3 & Hl' & H).
  apply load_Some in Hl' as (_ & Ht' & ->).
  apply IH in H as (Hh & Hb & Hlim & Hlog & Htl).
  destruct (s_next t =? tail st).
  - apply bind_Some in Hup as ([] & st4 & Hsn & [= <-]).
    apply store_next_Some in Hsn as (c & _ & _ & ->).
    simpl in *. repeat split; auto.
    destruct Htl as [->|Htl]; auto.
  - injection Hup as <-. repeat split; auto.
Qed.

Lemma free_inv dm block st st' :
  free dm block st = Some (tt, st') ->
  (block = NULL /\ st' = st)
  \/ exists h, block <> NULL /\ block - sizeof_header_t dm <> NULL /\
       heap st !! (block - sizeof_header_t dm) = Some h /\
       ((block + s_size h <> brk st /\
         st' = marked (block - sizeof_header_t dm) h st)
        \/ (block + s_size h = brk st /\
            exists st2 h' r st3,
              (if head st =? tail st
               then st2 = set_tail NULL (set_head NULL (log_event Locked st))
               else free_loop (S (size (heap st))) (head st) (log_event Locked st)
                    = Some (tt, st2)) /\
              heap st2 !! (block - sizeof_header_t dm) = Some h' /\
              sbrk (to_intptr dm (wrap dm (0 - sizeof_header_t dm - s_size h'))) st2
                = Some (r, st3) /\
              st' = log_event Unlocked st3)).
Proof.
  unfold free. destruct (Z.eqb_spec block NULL) as [->|Hnz].
  { intros [= <-]. left. auto. }
  intros H. right.
  apply bind_Some in H as ([] & st1 & [= <-] & H).
  apply bind_Some in H as (pb & st1 & Hq & H).
  rewrite sbrk_query in Hq. injection Hq as <- <-.
  apply bind_Some in H as (h & st1 & Hl & H).
  apply load_Some in Hl as (Hhn & Hh & ->).
  simpl in Hh. exists h. repeat split; auto.
  simpl brk in H.
  destruct (Z.eqb_spec (block + s_size h) (brk st)) as [Heq|Hne].
  - right. split; [exact Heq|].
    apply bind_Some in H as (hd & st1 & [= <- <-] & H).
    apply bind_Some in H as (tl & st1 & [= <- <-] & H).
    apply bind_Some in H as ([] & st2 & Hun & H).
    apply bind_Some in H as (h' & st2' & Hl & H).
    apply load_Some in Hl as (_ & Hh' & ->).
    apply bind_Some in H as (r & st3 & Hs & H).
    injection H as <-.
    exists st2, h', r, st3. simpl in Hun. repeat split; auto.
    destruct (head st =? tail st).
    + apply bind_Some in Hun as ([] & st4 & [= <-] & [= <-]). reflexivity.
    + apply bind_Some in Hun as (n & st4 & [= <- <-] & Hun). exact Hun.
  - left. split; [exact Hne|].
    apply bind_Some in H as ([] & st2 & Hs & [= <-]).
    apply store_is_free_Some in Hs as (c & _ & Hc & ->).
    simpl in Hc. rewrite Hh in Hc. injection Hc as <-. reflexivity.
Qed.

(** ** [head] and [tail] are [NULL] together *)

Lemma malloc_head_tail_agree dm size st p st' :
  head_tail_agree st -> malloc dm size st = Some (p, st') -> head_tail_agree st'.
Proof.
  unfold head_tail_agree. intros I H.
  apply malloc_inv in H
    as [(_ & _ & ->) | [(h & c & _ & _ & _ & _ & _ & ->)
       | [(_ & _ & _ & -> & -> & _) | (_ & _ & Hb & _ & _ & _ & ->)]]];
    simpl; auto.
  destruct (Z.eqb_spec (head st) NULL); split; intros; congruence.
Qed.

Lemma free_head_tail_agree dm block st st' :
  head_tail_agree st -> free dm block st = Some (tt, st') -> head_tail_agree st'.
Proof.
  unfold head_tail_agree. intros I H.
  apply free_inv in H as [[_ ->] | (h & _ & _ & _ & [[_ ->] | (_ & R)])]; auto.
  destruct R as (st2 & h' & r & st3 & Hun & _ & Hs & ->).
  assert (Hst3 : head st3 = head st2 /\ tail st3 = tail st2).
  { apply sbrk_Some in Hs as [(_ & _ & ->) | (_ & _ & ->)]; auto. }
  destruct Hst3 as [Hh3 Ht3]. simpl. rewrite Hh3, Ht3.
  destruct (Z.eqb_spec (head st) (tail st)) as [Heq|Hne].
  - subst st2. simpl. tauto.
  - apply free_loop_globals in Hun as (Hh & _ & _ & _ & Ht). simpl in Hh, Ht.
    rewrite Hh.
    assert (head st <> NULL /\ tail st <> NULL) as [Hhn Htn].
    { split; intros E; apply Hne; [rewrite E | rewrite E]; symmetry;
        [rewrite (proj1 I E) | rewrite (proj2 I E)]; reflexivity. }
    destruct Ht as [-> | Ht]; tauto.
Qed.

(** C10: in every state reached from an empty list by calls to [malloc]
    and [free], [head] is [NULL] exactly when [tail] is; each call, and so
    the append of [malloc] and the truncation of [free], preserves this. *)
Theorem head_null_iff_tail_null dm st :
  reachable dm st ->
  (head st = NULL <-> tail st = NULL) /\
  (forall size p st', malloc dm size st = Some (p, st') ->
                      (head st' = NULL <-> tail st' = NULL)) /\
  (forall block st', free dm block st = Some (tt, st') ->
                     (head st' = NULL <-> tail st' = NULL)).
Proof.
  intros R.
  assert (I : head_tail_agree st).
  { induction R as [st Hh Ht | st size p st' _ IH H | st block st' _ IH H].
    - unfold head_tail_agree. rewrite Hh, Ht. tauto.
    - eapply malloc_head_tail_agree; eauto.
    - eapply free_head_tail_agree; eauto. }
  split; [exact I|]. split.
  - intros size p st' H. exact (malloc_head_tail_agree _ _ _ _ _ I H).
  - intros block st' H. exact (free_head_tail_agree _ _ _ _ I H).
Qed.

Lemma head_null_iff_tail_null_witness :
  let st := grown LP64 16 (initial 4096 65536) in
  (head st = NULL <-> tail st = NULL) /\
  (forall size p st', malloc LP64 size st = Some (p, st') ->
                      (head st' = NULL <-> tail st' = NULL)) /\
  (forall block st', free LP64 block st = Some (tt, st') ->
                     (head st' = NULL <-> tail st' = NULL)).
Proof.
  apply (head_null_iff_tail_null LP64).
  apply (reachable_malloc LP64 (initial 4096 65536) 16 4120).
  - apply reachable_empty; reflexivity.
  - vm_compute. reflexivity.
Defined.

(** ** Behaviour on concrete runs *)

(** C1: a request that misses the free-block search moves the break by
    the size of a pointer plus the request ([sizeof(head_)] with
    [header_t *head_]), not by the size of a header plus the request.
    Shown for [malloc 16] on an empty list with the break at 4096. *)
Theorem malloc_miss_grows_by_pointer_size dm :
  get_free_block 16 (initial 4096 65536) = Some (NULL, initial 4096 65536) /\
  exists st', malloc dm 16 (initial 4096 65536)
              = Some (4096 + sizeof_header_t dm, st') /\
              brk st' - 4096 = sizeof_ptr dm + 16 /\
              brk st' - 4096 <> sizeof_header_t dm + 16.
Proof.
  split; [reflexivity|].
  destruct dm; eexists; (split; [vm_compute; reflexivity|]);
    split; vm_compute; congruence.
Qed.

(** C2: one allocation followed by its deallocation, the shortest LIFO
    sequence, does not bring the break back: the block does not end at the
    break, so [free] flags it and the break stays where [malloc] left it. *)
Theorem lifo_free_keeps_break dm :
  exists st', run dm [Malloc 16; Free (4096 + sizeof_header_t dm)] []
                (initial 4096 65536) = Some ([], st') /\
              brk st' = 4096 + sizeof_ptr dm + 16 /\
              brk st' <> brk (initial 4096 65536) /\
              head st' = 4096 /\ tail st' = 4096 /\
              heap st' !! 4096 = Some (Header 16 true NULL).
Proof.
  destruct dm; eexists; (split; [vm_compute; reflexivity|]);
    repeat split; vm_compute; congruence.
Qed.

(** C3: under LP64 the header occupies 24 bytes, which is no multiple of
    16, and the first pointer [malloc] returns from a 16-byte aligned
    break is not 16-byte aligned; under ILP32 the header occupies 16
    bytes, yet the second pointer returned is not aligned either, since
    the break advances by unrounded amounts. *)
Theorem payload_not_16_byte_aligned :
  (sizeof_header_t LP64 = 24 /\ sizeof_header_t LP64 mod 16 <> 0 /\
   brk (initial 4096 65536) mod 16 = 0 /\
   exists st', malloc LP64 16 (initial 4096 65536) = Some (4120, st') /\
               4120 mod 16 = 8) /\
  (sizeof_header_t ILP32 = 16 /\
   exists st', run ILP32 [Malloc 17; Malloc 16] [] (initial 4096 65536)
               = Some ([4133; 4112], st') /\
               4133 mod 16 = 5).
Proof.
  split.
  - split; [reflexivity|]. split; [vm_compute; congruence|].
    split; [reflexivity|]. eexists. split; [vm_compute; reflexivity|reflexivity].
  - split; [reflexivity|]. eexists. split; [vm_compute; reflexivity|reflexivity].
Qed.

(** C7: a client that only frees pointers it holds reaches a state where
    two blocks it still holds overlap.  After three allocations of 16, 16
    and 8 bytes the second block ends exactly at the break, so freeing it
    lowers the break below the third block, which the client still holds;
    the next allocation is carved over it. *)
Theorem live_payloads_overlap :
  exists st', run LP64 [Malloc 16; Malloc 16; Malloc 8; Free 4144; Malloc 32] []
                (initial 4096 65536) = Some ([4144; 4168; 4120], st') /\
              payload LP64 st' 4144 = Some (4144, 4176) /\
              payload LP64 st' 4168 = Some (4168, 4176) /\
              4144 <= 4168 < 4176.
Proof.
  eexists. split; [vm_compute; reflexivity|].
  split; [reflexivity|]. split; [reflexivity|]. lia.
Qed.

(** ** The block list *)

Section Chain.

Variable m : gmap Z header_t.

Lemma chain_inv_nil l : chain m NULL l -> l = [].
Proof. inversion 1; [reflexivity | contradiction]. Qed.

Lemma chain_det a l1 l2 : chain m a l1 -> chain m a l2 -> l1 = l2.
Proof.
  intros H1. revert l2. induction H1 as [|a h l Ha Hh _ IH]; intros l2 H2.
  - symmetry. apply chain_inv_nil, H2.
  - inversion H2 as [|a' h' l' _ Hh' Hl']; subst; [contradiction|].
    rewrite Hh in Hh'. injection Hh' as <-. f_equal. apply IH, Hl'.
Qed.

Lemma chain_lookup a l b : chain m a l -> b ∈ l -> b <> NULL /\ is_Some (m !! b).
Proof.
  induction 1 as [|a h l Ha Hh _ IH]; intros Hb.
  - inversion Hb.
  - apply elem_of_cons in Hb as [->|Hb]; eauto.
Qed.

(** From any record of a chain the rest of the chain is again a chain. *)
Lemma chain_from a l b :
  chain m a l -> b ∈ l ->
  exists l1 l2, l = l1 ++ b :: l2 /\ chain m b (b :: l2).
Proof.
  induction 1 as [|a h l Ha Hh Hl IH]; intros Hb.
  - inversion Hb.
  - apply elem_of_cons in Hb as [->|Hb].
    + exists [], l. split; [reflexivity|]. econstructor; eauto.
    + destruct (IH Hb) as (l1 & l2 & -> & Hc).
      exists (a :: l1), l2. split; [reflexivity | exact Hc].
Qed.

Lemma chain_NoDup a l : chain m a l -> NoDup l.
Proof.
  induction 1 as [|a h l Ha Hh Hl IH]; [constructor|].
  apply NoDup_cons. split; [|exact IH].
  intros Hin.
  destruct (chain_from _ _ _ Hl Hin) as (l1 & l2 & -> & Hc).
  assert (E : a :: l2 = a :: l1 ++ a :: l2).
  { apply (chain_det a); [exact Hc | econstructor; eauto]. }
  apply (f_equal length) in E. simpl in E. rewrite length_app in E. simpl in E. lia.
Qed.

Lemma chain_length a l : chain m a l -> (length l <= size m)%nat.
Proof.
  intros H. rewrite <- (size_dom (D := gset Z)).
  apply submseteq_length, NoDup_submseteq; [eapply chain_NoDup, H|].
  intros b Hb. apply elem_of_elements, elem_of_dom.
  eapply chain_lookup; eauto.
Qed.


(** ** The search follows the chain *)

Lemma get_free_block_loop_chain sz a l fuel :
  chain m a l -> (length l < fuel)%nat ->
  exists r, get_free_block_loop fuel m sz a = Some r /\ first_fit m sz l r.
Proof.
  intros H. revert fuel. induction H as [|a h l Ha Hh Hl IH]; intros fuel Hf.
  - destruct fuel as [|fuel]; [simpl in Hf; lia|]. exists NULL. split; [reflexivity|].
    left. split; [reflexivity|]. intros a c Hin. inversion Hin.
  - destruct fuel as [|fuel]; [simpl in Hf; lia|]. simpl.
    destruct (Z.eqb_spec a NULL) as [|_]; [contradiction|]. rewrite Hh.
    fold (fits sz h). destruct (fits sz h) eqn:Hfit.
    + exists a. split; [reflexivity|]. right. exists [], l, h.
      repeat split; auto. intros b c' Hin. inversion Hin.
    + destruct (IH fuel) as (r & Hr & Hff); [simpl in Hf; lia|].
      exists r. split; [exact Hr|].
      destruct Hff as [[-> Hnone] | (l1 & l2 & c & -> & Hrn & Hc & Hfc & Hnone)].
      * left. split; [reflexivity|]. intros b c Hin Hc.
        apply elem_of_cons in Hin as [->|Hin]; [congruence | eauto].
      * right. exists (a :: l1), l2, c. repeat split; auto.
        intros b c' Hin Hc'.
        apply elem_of_cons in Hin as [->|Hin]; [congruence | eauto].
Qed.

End Chain.

(** The search on the list of a state. *)
Lemma get_free_block_on_chain st l sz :
  chain (heap st) (head st) l ->
  exists r, get_free_block sz st = Some (r, st) /\ first_fit (heap st) sz l r.
Proof.
  intros H.
  destruct (get_free_block_loop_chain (heap st) sz (head st) l (S (size (heap st))) H)
    as (r & Hr & Hff).
  { pose proof (chain_length _ _ _ H). lia. }
  exists r. unfold get_free_block. rewrite Hr. auto.
Qed.

(** C5: on a list that runs from [head] to [NULL], [get_free_block]
    returns the first record in list order that is free and at least as
    large as the request, and [NULL] when the list is empty or no record
    qualifies; the state, and with it every stored size, is untouched. *)
Theorem get_free_block_first_fit st l sz :
  chain (heap st) (head st) l ->
  exists r, get_free_block sz st = Some (r, st) /\
            first_fit (heap st) sz l r /\
            (l = [] -> r = NULL).
Proof.
  intros H.
  destruct (get_free_block_loop_chain (heap st) sz (head st) l (S (size (heap st))) H)
    as (r & Hr & Hff).
  { pose proof (chain_length _ _ _ H). lia. }
  exists r. unfold get_free_block. rewrite Hr. repeat split; auto.
  intros ->. destruct Hff as [[-> _] | (l1 & l2 & c & E & _)]; [reflexivity|].
  destruct l1; discriminate.
Qed.

Lemma get_free_block_first_fit_witness :
  let st := State 4096 4120
              (<[4096 := Header 16 true 4120]> (<[4120 := Header 32 false NULL]> ∅))
              4160 65536 [] in
  exists r, get_free_block 8 st = Some (r, st) /\
            first_fit (heap st) 8 [4096; 4120] r /\
            ([4096; 4120] = [] -> r = NULL).
Proof.
  apply get_free_block_first_fit. simpl.
  apply (chain_cons _ 4096 (Header 16 true 4120)); [discriminate | reflexivity |].
  apply (chain_cons _ 4120 (Header 32 false NULL)); [discriminate | reflexivity |].
  apply chain_nil.
Defined.

(** ** Chains under updates of the records *)

Lemma chain_insert_fresh m a l x c :
  chain m a l -> x ∉ l -> chain (<[x := c]> m) a l.
Proof.
  induction 1 as [|a h l Ha Hh _ IH]; intros Hx; [constructor|].
  apply not_elem_of_cons in Hx as [Hxa Hx].
  econstructor; [exact Ha | rewrite lookup_insert_ne by congruence; exact Hh | auto].
Qed.

Lemma chain_insert_same_next m a l x c c' :
  chain m a l -> m !! x = Some c -> s_next c' = s_next c ->
  chain (<[x := c']> m) a l.
Proof.
  intros H Hx Hn. induction H as [|a h l Ha Hh _ IH]; [constructor|].
  destruct (decide (x = a)) as [->|Hne].
  - apply (chain_cons _ a c'); [exact Ha | apply lookup_insert_eq |].
    rewrite Hn. rewrite Hh in Hx. injection Hx as <-. exact IH.
  - econstructor; [exact Ha | rewrite lookup_insert_ne by congruence; exact Hh | exact IH].
Qed.


(** Appending a record behind the last one. *)
Lemma chain_append m a l t c b nb :
  chain m a (l ++ [t]) -> m !! t = Some c -> b <> NULL -> b ∉ l ++ [t] ->
  s_next nb = NULL ->
  chain (<[t := Header (s_size c) (s_is_free c) b]> (<[b := nb]> m)) a
        (l ++ [t; b]).
Proof.
  intros H Ht Hb Hfresh Hnb. pose proof (chain_NoDup _ _ _ H) as Hnd.
  assert (Htb : t <> b).
  { intros ->. apply Hfresh. apply elem_of_app. right. left. }
  revert a H Hnd Hfresh. induction l as [|x l IH]; intros a H Hnd Hfresh; simpl in *.
  - inversion H as [|a' h l' Ha Hh Hl]; subst.
    apply (chain_cons _ t (Header (s_size c) (s_is_free c) b));
      [exact Ha | apply lookup_insert_eq |].
    simpl. apply (chain_cons _ b nb); [exact Hb | |].
    + rewrite lookup_insert_ne by exact Htb. apply lookup_insert_eq.
    + rewrite Hnb. constructor.
  - inversion H as [|a' h l' Ha Hh Hl]; subst.
    apply NoDup_cons in Hnd as [Hx Hnd].
    apply not_elem_of_cons in Hfresh as [Hbx Hfresh].
    apply (chain_cons _ x h); [exact Ha | | apply IH; assumption].
    rewrite !lookup_insert_ne; [exact Hh | congruence |].
    intros ->. apply Hx. apply elem_of_app. right. left.
Qed.

(** ** Shape of a list between [head] and [tail] *)




Lemma last_one {A} (l0 : list A) q d : List.last (l0 ++ [q]) d = q.
Proof. apply List.last_last. Qed.



(** ** The truncating path of [free] *)

(** The amount [free] passes to [sbrk], for a block that fits in half the
    address space: minus the header size and the block size. *)
Lemma release_increment dm s :
  0 <= s -> sizeof_header_t dm + s <= SIZE_MODULUS dm / 2 ->
  to_intptr dm (wrap dm (0 - sizeof_header_t dm - s)) = - (sizeof_header_t dm + s).
Proof.
  intros Hs Hle.
  destruct (sizeof_ptr_lt_header dm) as [_ HH].
  destruct (sizeof_ptr_lt_header dm) as [HP _].
  destruct (SIZE_MODULUS_pos dm) as [Hhalf HM].
  unfold to_intptr, wrap.
  generalize dependent (SIZE_MODULUS dm). intros M Hle Hhalf HM.
  generalize dependent (sizeof_header_t dm). intros H HH Hle.
  generalize dependent (sizeof_ptr dm). intros P HP HH.
  assert (E : (0 - H - s) mod M = M - H - s).
  { symmetry. apply (Z.mod_unique_pos _ _ (-1)); lia. }
  rewrite E. destruct (Z.ltb_spec (M - H - s) (M / 2)); lia.
Qed.



Lemma sbrk_lower incr st :
  incr <= 0 -> sbrk incr st = Some (brk st, set_brk (brk st + incr) st).
Proof.
  intros H. apply sbrk_granted. unfold sbrk_grants.
  destruct (Z.leb_spec incr 0); [reflexivity | lia].
Qed.



(** ** Reuse of a freed block *)

Lemma records_before_split x l1 l2 :
  x ∉ l1 -> records_before x (l1 ++ x :: l2) = l1.
Proof.
  induction l1 as [|a l1 IH]; intros Hx; simpl.
  - destruct (decide (x = x)); [reflexivity | contradiction].
  - apply not_elem_of_cons in Hx as [Hxa Hx].
    destruct (decide (a = x)); [congruence|]. rewrite IH by exact Hx. reflexivity.
Qed.

Lemma records_before_absent x l : x ∉ l -> records_before x l = l.
Proof.
  induction l as [|a l IH]; intros Hx; simpl; [reflexivity|].
  apply not_elem_of_cons in Hx as [Hxa Hx].
  destruct (decide (a = x)); [congruence|]. rewrite IH by exact Hx. reflexivity.
Qed.

Lemma get_free_block_loop_finds m sz r c l2 : forall l1 a fuel,
  chain m a (l1 ++ r :: l2) -> m !! r = Some c -> fits sz c = true ->
  (forall b c', b ∈ l1 -> m !! b = Some c' -> fits sz c' = false) ->
  (length l1 < fuel)%nat ->
  get_free_block_loop fuel m sz a = Some r.
Proof.
  induction l1 as [|x l1 IH]; intros a fuel Hc Hr Hfit Hnone Hf;
    (destruct fuel as [|fuel]; [simpl in Hf; lia|]);
    simpl app in Hc; inversion Hc as [|a' h l' Ha Hh Hl]; subst; simpl.
  - destruct (Z.eqb_spec r NULL) as [|_]; [contradiction|]. rewrite Hr.
    fold (fits sz c). rewrite Hfit. reflexivity.
  - destruct (Z.eqb_spec x NULL) as [|_]; [contradiction|]. rewrite Hh.
    fold (fits sz h). rewrite (Hnone x h) by (auto; left).
    apply IH; auto.
    + intros b c' Hb. apply Hnone. right. exact Hb.
    + simpl in Hf. lia.
Qed.

Lemma get_free_block_finds st l1 r l2 c sz :
  chain (heap st) (head st) (l1 ++ r :: l2) ->
  heap st !! r = Some c -> fits sz c = true ->
  (forall b c', b ∈ l1 -> heap st !! b = Some c' -> fits sz c' = false) ->
  get_free_block sz st = Some (r, st).
Proof.
  intros Hc Hr Hfit Hnone. unfold get_free_block.
  rewrite (get_free_block_loop_finds _ sz r c l2 l1); auto.
  pose proof (chain_length _ _ _ Hc) as Hlen.
  rewrite length_app in Hlen. simpl in Hlen. lia.
Qed.

Lemma malloc_hit_run dm sz st h c :
  sz <> 0 -> h <> NULL ->
  get_free_block sz st = Some (h, st) -> heap st !! h = Some c ->
  malloc dm sz st = Some (h + sizeof_header_t dm, reused h c st).
Proof.
  intros Hsz Hh Hg Hc. unfold malloc.
  destruct (Z.eqb_spec sz 0) as [|_]; [contradiction|].
  set (st1 := log_event Locked st).
  run_with (eq_refl : pthread_mutex_lock st = Some (tt, st1)).
  run_with (get_free_block_frame sz st st1 h eq_refl eq_refl Hg).
  destruct (Z.eqb_spec h NULL) as [|_]; [contradiction|].
  change (negb false) with true. cbv iota.
  run_with (store_is_free_run h false st1 c Hh Hc). reflexivity.
Qed.

(** Running a client keeps the state reachable. *)
Lemma run_reachable dm cs : forall live st live' st',
  reachable dm st -> run dm cs live st = Some (live', st') -> reachable dm st'.
Proof.
  induction cs as [|[n|p] cs IH]; intros live st live' st' R H; simpl in H.
  - injection H as _ <-. exact R.
  - apply bind_Some in H as (q & st1 & Hm & H).
    eapply IH; [|exact H]. eapply reachable_malloc; eauto.
  - destruct (bool_decide (p ∈ live)); [|discriminate].
    apply bind_Some in H as ([] & st1 & Hf & H).
    eapply IH; [|exact H]. eapply reachable_free; eauto.
Qed.

(** A [free] that finds the block at the break gives memory back
    instead of flagging the block, and the next [malloc] has to raise
    the break again.  Under ILP32 the three fields of a header take its
    first 12 bytes ([struct_offsets_ILP32]), and [malloc 8] moves the
    break by 12, so four calls [malloc 8] write headers at 4096, 4108,
    4120 and 4132 that share no field ([fields_apart]; no other header
    is written in the run) and return 4112, 4124, 4136 and 4148.  After [free 4112] (flagged) and [free 4136] (the break drops
    from 4144 to 4120), [malloc 8] reuses the first block and returns
    4112, [free 4112] finds 4112 + 8 at the break and lowers it to 4096,
    and [malloc 8] returns 4112 again by raising the break to 4108. *)
Example release_then_malloc_raises_break :
  let before := [Malloc 8; Malloc 8; Malloc 8; Malloc 8; Free 4112; Free 4136] in
  let st := state_after ILP32 before (initial 4096 65536) in
  let st1 := state_after ILP32 (before ++ [Malloc 8]) (initial 4096 65536) in
  let st2 := state_after ILP32 (before ++ [Malloc 8; Free 4112])
               (initial 4096 65536) in
  let st3 := state_after ILP32 (before ++ [Malloc 8; Free 4112; Malloc 8])
               (initial 4096 65536) in
  reachable ILP32 st /\
  malloc ILP32 8 st = Some (4112, st1) /\
  free ILP32 4112 st1 = Some (tt, st2) /\
  malloc ILP32 8 st2 = Some (4112, st3) /\
  (brk st, brk st1, brk st2, brk st3) = (4120, 4120, 4096, 4108) /\
  fields_apart ILP32 (heap st3).
Proof.
  intros before st st1 st2 st3.
  split; [|split; [|split; [|split; [|split]]]; try (vm_compute; reflexivity)].
  - apply (run_reachable ILP32 before [] (initial 4096 65536) [4148; 4124]).
    + apply reachable_empty; reflexivity.
    + vm_compute. reflexivity.
  - assert (E : heap st3
                = <[4096 := Header 8 false NULL]>
                    (<[4108 := Header 8 false 4096]>
                       (<[4120 := Header 8 false NULL]>
                          (<[4132 := Header 8 false NULL]> ∅))))
      by (vm_compute; reflexivity).
    rewrite E. solve_separated.
Qed.

(** The same on a list whose headers are a full header size apart, under
    LP64: the second of two blocks is free, 32 bytes large and ends at
    the break.  [malloc 32] returns it, [free] gives it back and lowers
    the break from 4176 to 4120, and [malloc 16] returns the same pointer
    by raising the break to 4144. *)
Example release_at_list_end_raises_break :
  let st := State 4096 4120
              (<[4096 := Header 16 false 4120]>
                 (<[4120 := Header 32 true NULL]> ∅))
              4176 65536 [] in
  let st1 := state_after LP64 [Malloc 32] st in
  let st2 := state_after LP64 [Malloc 32; Free 4144] st in
  let st3 := state_after LP64 [Malloc 32; Free 4144; Malloc 16] st in
  block_list st [4096; 4120] /\
  separated LP64 (heap st) /\ ends_below LP64 (heap st) (brk st) /\
  malloc LP64 32 st = Some (4144, st1) /\
  free LP64 4144 st1 = Some (tt, st2) /\
  malloc LP64 16 st2 = Some (4144, st3) /\
  (brk st, brk st1, brk st2, brk st3) = (4176, 4176, 4120, 4144).
Proof.
  intros st st1 st2 st3.
  split; [|split; [|split]].
  - split; [|reflexivity]. simpl.
    apply (chain_cons _ 4096 (Header 16 false 4120)); [discriminate | reflexivity |].
    apply (chain_cons _ 4120 (Header 32 true NULL)); [discriminate | reflexivity |].
    apply chain_nil.
  - subst st. solve_separated.
  - subst st. solve_ends_below.
  - split; [|split; [|split]]; vm_compute; reflexivity.
Qed.

(** C6 as stated does not hold, in two ways.  First fit prefers an
    earlier free record: under LP64, with a free 16-byte block at the
    front of the list, [malloc 32] carves a new block at 4208,
    [free 4208] flags it, and [malloc 16] returns the front block 4120.
    And a [free] that finds the block at the break lowers the break, so
    that the second [malloc] raises it: the ILP32 run of
    [release_then_malloc_raises_break]. *)
Lemma reuse_unconditional_fails :
  ~ reuse_unconditional LP64 /\ ~ reuse_unconditional ILP32.
Proof.
  split; intros C.
  - pose (before := [Malloc 16; Malloc 32; Malloc 16; Free 4120]).
    pose (st := state_after LP64 before (initial 4096 65536)).
    pose (st1 := state_after LP64 (before ++ [Malloc 32]) (initial 4096 65536)).
    pose (st2 := state_after LP64 (before ++ [Malloc 32; Free 4208])
                   (initial 4096 65536)).
    pose (st3 := state_after LP64 (before ++ [Malloc 32; Free 4208; Malloc 16])
                   (initial 4096 65536)).
    assert (R : reachable LP64 st).
    { apply (run_reachable LP64 before [] (initial 4096 65536) [4184; 4144]).
      - apply reachable_empty; reflexivity.
      - vm_compute. reflexivity. }
    assert (H1 : malloc LP64 32 st = Some (4208, st1)) by (vm_compute; reflexivity).
    assert (H2 : free LP64 4208 st1 = Some (tt, st2)) by (vm_compute; reflexivity).
    assert (H3 : malloc LP64 16 st2 = Some (4120, st3)) by (vm_compute; reflexivity).
    assert (HN : 0 < 32) by reflexivity.
    assert (HM : 0 < 16 <= 32) by (split; [reflexivity | discriminate]).
    assert (Hp : 4208 <> NULL) by discriminate.
    destruct (C st 32 16 4208 st1 st2 4120 st3 R HN HM H1 Hp H2 H3) as [E _].
    discriminate E.
  - pose proof release_then_malloc_raises_break as E. cbv zeta in E.
    destruct E as (R & H1 & H2 & H3 & _).
    assert (HN : 0 < 8) by reflexivity.
    assert (HM : 0 < 8 <= 8) by (split; [reflexivity | discriminate]).
    assert (Hp : 4112 <> NULL) by discriminate.
    destruct (C _ 8 8 4112 _ _ 4112 _ R HN HM H1 Hp H2 H3) as [_ Hle].
    assert (Hb2 : brk (state_after ILP32
                        ([Malloc 8; Malloc 8; Malloc 8; Malloc 8; Free 4112;
                          Free 4136] ++ [Malloc 8; Free 4112])
                        (initial 4096 65536)) = 4096)
      by (vm_compute; reflexivity).
    assert (Hb3 : brk (state_after ILP32
                        ([Malloc 8; Malloc 8; Malloc 8; Malloc 8; Free 4112;
                          Free 4136] ++ [Malloc 8; Free 4112; Malloc 8])
                        (initial 4096 65536)) = 4108)
      by (vm_compute; reflexivity).
    rewrite Hb2, Hb3 in Hle. lia.
Qed.

(** ** Reuse when [free] flags the block *)

Lemma fits_same_size_flag sz c c' :
  s_size c' = s_size c -> s_is_free c' = s_is_free c -> fits sz c' = fits sz c.
Proof. unfold fits. intros -> ->. reflexivity. Qed.

Lemma fits_le sz sz' c : sz' <= sz -> fits sz c = true -> fits sz' c = true.
Proof.
  unfold fits. intros Hle H. apply andb_prop in H as [-> H].
  apply Z.leb_le in H. simpl. apply Z.leb_le. lia.
Qed.

(** A [free] that does not find the block at the break flags it. *)
Lemma free_marks dm p st st' h :
  p <> NULL -> heap st !! (p - sizeof_header_t dm) = Some h ->
  p + s_size h <> brk st ->
  free dm p st = Some (tt, st') ->
  st' = marked (p - sizeof_header_t dm) h st.
Proof.
  intros Hp Hh Hne H.
  apply free_inv in H as [[E _] | (h' & _ & _ & Hh' & [[_ ->] | [Heq _]])].
  - contradiction.
  - congruence.
  - rewrite Hh in Hh'. injection Hh' as <-. contradiction.
Qed.

(** Reuse of a block that the first [malloc] took from the list. *)
Lemma reuse_of_listed dm st l N M h c st2 :
  chain (heap st) (head st) l ->
  0 < M <= N -> h <> NULL ->
  get_free_block N st = Some (h, st) -> heap st !! h = Some c ->
  st2 = marked h (Header (s_size c) false (s_next c)) (reused h c st) ->
  (forall a c', a ∈ records_before h l -> heap st !! a = Some c' ->
                fits M c' = false) ->
  exists st3, malloc dm M st2 = Some (h + sizeof_header_t dm, st3) /\
              brk st3 = brk st2.
Proof.
  intros Hch HM Hh Hg Hc -> Hnone.
  destruct (get_free_block_on_chain st l N Hch) as (r & Hg' & Hff).
  rewrite Hg in Hg'. injection Hg' as <-.
  destruct Hff as [[E _] | (l1 & l2 & c0 & -> & _ & Hc0 & Hfit & _)]; [contradiction|].
  rewrite Hc in Hc0. injection Hc0 as <-.
  assert (Hh1 : h ∉ l1).
  { apply chain_NoDup in Hch. apply NoDup_app in Hch as (_ & Hd & _).
    intros Hin. apply (Hd h Hin). left. }
  rewrite records_before_split in Hnone by exact Hh1.
  set (c1 := Header (s_size c) false (s_next c)).
  set (c2 := Header (s_size c) true (s_next c)).
  set (st2 := marked h c1 (reused h c st)).
  assert (Hm2 : heap st2 = <[h := c2]> (<[h := c1]> (heap st))) by reflexivity.
  assert (Hc2 : heap st2 !! h = Some c2) by (rewrite Hm2; apply lookup_insert_eq).
  assert (Hg2 : get_free_block M st2 = Some (h, st2)).
  { apply (get_free_block_finds st2 l1 h l2 c2).
    - rewrite Hm2. change (head st2) with (head st).
      apply chain_insert_same_next with (c := c1);
        [|apply lookup_insert_eq | reflexivity].
      apply chain_insert_same_next with (c := c); [exact Hch | exact Hc | reflexivity].
    - exact Hc2.
    - apply fits_le with (sz := N); [lia|].
      unfold fits in *. apply andb_prop in Hfit as [_ Hle]. simpl. exact Hle.
    - intros b c' Hb Hb'. apply (Hnone b); [exact Hb|].
      rewrite Hm2 in Hb'.
      rewrite !lookup_insert_ne in Hb' by (intros ->; contradiction). exact Hb'. }
  exists (reused h c2 st2). split; [|reflexivity].
  apply malloc_hit_run; auto. lia.
Qed.

Lemma chain_nonempty_head m a l : chain m a l -> l <> [] -> a <> NULL.
Proof. inversion 1; [contradiction | auto]. Qed.

Lemma chain_empty_head m a : chain m a [] -> a = NULL.
Proof. inversion 1. reflexivity. Qed.

Lemma block_list_tail_null st l : block_list st l -> tail st = NULL -> l = [].
Proof.
  intros [Hc Ht] Hn. destruct l as [|x l]; [reflexivity|]. exfalso.
  destruct (exists_last (l := x :: l)) as (l' & t & E); [discriminate|].
  rewrite E in Ht, Hc. rewrite last_one in Ht.
  destruct (chain_lookup _ _ _ t Hc) as [Hne _].
  { apply elem_of_app. right. left. }
  congruence.
Qed.

Lemma block_list_tail st l :
  block_list st l -> tail st <> NULL -> exists l', l = l' ++ [tail st].
Proof.
  intros [Hc Ht] Hn. destruct l as [|x l]; [simpl in Ht; contradiction|].
  destruct (exists_last (l := x :: l)) as (l' & t & E); [discriminate|].
  rewrite E in Ht. rewrite last_one in Ht. subst t. eauto.
Qed.

(** Reuse of a block that the first [malloc] carved at the break. *)
Lemma reuse_of_carved dm st l N M st2 :
  block_list st l -> (forall a, a ∈ l -> a < brk st) ->
  0 < M <= N -> brk st <> NULL ->
  (forall h, heap (grown dm N st) !! brk st = Some h ->
             st2 = marked (brk st) h (grown dm N st)) ->
  (forall a c', a ∈ l -> heap st !! a = Some c' -> fits M c' = false) ->
  exists st3, malloc dm M st2 = Some (brk st + sizeof_header_t dm, st3) /\
              brk st3 = brk st2.
Proof.
  intros Hl Hbelow HM Hb Hst2 Hnone.
  set (b := brk st) in *.
  assert (Hbl : b ∉ l) by (intros Hin; apply Hbelow in Hin; lia).
  set (c1 := Header N false NULL). set (c2 := Header N true NULL).
  assert (Hshape :
    heap (grown dm N st) !! b = Some c1 /\
    chain (heap (grown dm N st)) (head (grown dm N st)) (l ++ [b]) /\
    (forall a c', a ∈ l -> heap (grown dm N st) !! a = Some c' ->
                  fits M c' = false)).
  { unfold grown. fold b. fold c1. simpl.
    destruct (Z.eqb_spec (tail st) NULL) as [Ht|Ht].
    - pose proof (block_list_tail_null _ _ Hl Ht) as ->.
      destruct Hl as [Hc _]. apply chain_empty_head in Hc. rewrite Hc. simpl.
      split; [apply lookup_insert_eq|]. split.
      + apply (chain_cons _ b c1); [exact Hb | apply lookup_insert_eq | constructor].
      + intros a c' Hin. inversion Hin.
    - destruct (block_list_tail _ _ Hl Ht) as (l' & ->).
      destruct Hl as [Hc _].
      assert (Hin : tail st ∈ l' ++ [tail st]) by (apply elem_of_app; right; left).
      destruct (chain_lookup _ _ _ _ Hc Hin) as [_ [tc Htc]].
      assert (Htb : tail st <> b) by (intros E; apply Hbl; rewrite <- E; exact Hin).
      rewrite lookup_insert_ne by congruence. rewrite Htc.
      assert (Hhd : head st <> NULL).
      { apply (chain_nonempty_head _ _ _ Hc). destruct l'; discriminate. }
      destruct (Z.eqb_spec (head st) NULL) as [|_]; [contradiction|].
      split; [rewrite lookup_insert_ne by exact Htb; apply lookup_insert_eq|]. split.
      + rewrite <- app_assoc. simpl.
        apply chain_append; [exact Hc | exact Htc | exact Hb | exact Hbl | reflexivity].
      + intros a c' Ha Hc'.
        destruct (decide (a = tail st)) as [->|Hat].
        * rewrite lookup_insert_eq in Hc'. injection Hc' as <-.
          rewrite (fits_same_size_flag M tc) by reflexivity.
          apply (Hnone (tail st)); [exact Hin | exact Htc].
        * rewrite lookup_insert_ne in Hc' by congruence.
          rewrite lookup_insert_ne in Hc' by (intros <-; contradiction).
          apply (Hnone a); assumption. }
  destruct Hshape as (Hb1 & Hch & Hnone1).
  specialize (Hst2 c1 Hb1). subst st2.
  set (st1 := grown dm N st) in *.
  set (st2 := marked b c1 st1).
  assert (Hm2 : heap st2 = <[b := c2]> (heap st1)) by reflexivity.
  assert (Hc2 : heap st2 !! b = Some c2) by (rewrite Hm2; apply lookup_insert_eq).
  assert (Hg2 : get_free_block M st2 = Some (b, st2)).
  { apply (get_free_block_finds st2 l b [] c2).
    - rewrite Hm2. change (head st2) with (head st1).
      apply chain_insert_same_next with (c := c1); [exact Hch | exact Hb1 | reflexivity].
    - exact Hc2.
    - unfold fits, c2. simpl. apply Z.leb_le. lia.
    - intros a c' Ha Hc'. apply (Hnone1 a); [exact Ha|].
      rewrite Hm2 in Hc'.
      rewrite lookup_insert_ne in Hc' by (intros <-; contradiction). exact Hc'. }
  exists (reused b c2 st2). split; [|reflexivity].
  apply malloc_hit_run; auto. lia.
Qed.

(** C6 (amended): on a list that runs from [head] to [tail], in a state
    whose headers share no byte and end at or below the break, after
    [malloc N] returns [p] and [free p] does not find [p]'s block at the
    break, [malloc M] with [0 < M <= N] returns [p] again and leaves the
    break where it was, provided no record ahead of [p]'s record in the
    list is free and at least [M] bytes large. *)
Theorem reuse_after_mark dm st l N M p st1 st2 :
  block_list st l ->
  separated dm (heap st) ->
  ends_below dm (heap st) (brk st) ->
  0 < M <= N ->
  malloc dm N st = Some (p, st1) -> p <> NULL ->
  free dm p st1 = Some (tt, st2) ->
  (forall h, heap st1 !! (p - sizeof_header_t dm) = Some h ->
             p + s_size h <> brk st1) ->
  (forall a c, a ∈ records_before (p - sizeof_header_t dm) l ->
               heap st !! a = Some c -> fits M c = false) ->
  exists st3, malloc dm M st2 = Some (p, st3) /\ brk st3 = brk st2.
Proof.
  intros Hl _ Hends HM H1 Hp H2 Hmark Hnone.
  assert (Hbelow : forall a, a ∈ l -> a < brk st).
  { intros a Ha. destruct (chain_lookup _ _ _ _ (proj1 Hl) Ha) as [_ Hs].
    apply Hends in Hs. destruct (sizeof_ptr_lt_header dm). lia. }
  apply malloc_inv in H1
    as [(E & _) | [(h & c & _ & Hh & Hg & Hc & -> & ->)
       | [(_ & _ & E & _) | (_ & Hg & Hb & _ & _ & -> & ->)]]];
    [lia | | contradiction |].
  - replace (h + sizeof_header_t dm - sizeof_header_t dm) with h in * by lia.
    assert (Hh1 : heap (reused h c st) !! h
                  = Some (Header (s_size c) false (s_next c)))
      by apply lookup_insert_eq.
    apply (reuse_of_listed dm st l N M h c st2 (proj1 Hl) HM Hh Hg Hc); [|exact Hnone].
    pose proof (free_marks dm _ _ _ _ Hp
                  (eq_ind_r (fun a => heap (reused h c st) !! a = _) Hh1
                     (Z.add_simpl_r h (sizeof_header_t dm)))
                  (Hmark _ Hh1) H2) as E.
    rewrite Z.add_simpl_r in E. exact E.
  - replace (brk st + sizeof_header_t dm - sizeof_header_t dm) with (brk st) in *
      by lia.
    assert (Hbl : brk st ∉ l) by (intros Hin; apply Hbelow in Hin; lia).
    rewrite records_before_absent in Hnone by exact Hbl.
    apply (reuse_of_carved dm st l N M st2 Hl Hbelow HM Hb); [|exact Hnone].
    intros h Hh.
    pose proof (free_marks dm _ _ _ _ Hp
                  (eq_ind_r (fun a => heap (grown dm N st) !! a = _) Hh
                     (Z.add_simpl_r (brk st) (sizeof_header_t dm)))
                  (Hmark _ Hh) H2) as E.
    rewrite Z.add_simpl_r in E. exact E.
Qed.

Lemma reuse_after_mark_witness :
  let st := State 4096 4160
              (<[4096 := Header 16 false 4120]>
                 (<[4120 := Header 32 true 4160]>
                    (<[4160 := Header 16 false NULL]> ∅)))
              4184 65536 [] in
  let st1 := reused 4120 (Header 32 true 4160) st in
  let st2 := marked 4120 (Header 32 false 4160) st1 in
  exists st3, malloc LP64 16 st2 = Some (4144, st3) /\ brk st3 = brk st2.
Proof.
  intros st st1 st2.
  apply (reuse_after_mark LP64 st [4096; 4120; 4160] 32 16 4144 st1 st2).
  - split; [|reflexivity]. simpl.
    apply (chain_cons _ 4096 (Header 16 false 4120)); [discriminate | reflexivity |].
    apply (chain_cons _ 4120 (Header 32 true 4160)); [discriminate | reflexivity |].
    apply (chain_cons _ 4160 (Header 16 false NULL)); [discriminate | reflexivity |].
    apply chain_nil.
  - subst st. solve_separated.
  - subst st. solve_ends_below.
  - lia.
  - vm_compute. reflexivity.
  - discriminate.
  - vm_compute. reflexivity.
  - intros h Hh. vm_compute in Hh. injection Hh as <-. vm_compute. discriminate.
  - intros a c Ha Hc. vm_compute in Ha.
    apply list_elem_of_singleton in Ha as ->.
    vm_compute in Hc. injection Hc as <-. reflexivity.
Defined.

(* ===================================================================== *)
(** * 6. Further properties of the code *)
(* ===================================================================== *)

(** ** The example list *)

Lemma three_blocks_list : block_list three_blocks [4096; 4120; 4160].
Proof.
  split; [|reflexivity]. simpl.
  apply (chain_cons _ 4096 (Header 16 false 4120)); [discriminate | reflexivity |].
  apply (chain_cons _ 4120 (Header 32 true 4160)); [discriminate | reflexivity |].
  apply (chain_cons _ 4160 (Header 16 false NULL)); [discriminate | reflexivity |].
  apply chain_nil.
Qed.

Example three_blocks_reached :
  let st := state_after LP64 [Malloc 16; Malloc 32; Malloc 16; Free 4144]
              (initial 4096 65536) in
  (head st, tail st, heap st, brk st, brk_limit st)
  = (head three_blocks, tail three_blocks, heap three_blocks,
     brk three_blocks, brk_limit three_blocks).
Proof. vm_compute. reflexivity. Qed.

(** ** Running the two paths of [malloc] and the flagging path of [free] *)

Lemma grow_increment dm size :
  0 <= size -> sizeof_ptr dm + size < SIZE_MODULUS dm / 2 ->
  to_intptr dm (wrap dm (sizeof_ptr dm + size)) = sizeof_ptr dm + size.
Proof.
  intros H0 H1.
  destruct (sizeof_ptr_lt_header dm) as [HP _].
  destruct (SIZE_MODULUS_pos dm) as [Hhalf HM].
  unfold to_intptr, wrap.
  generalize dependent (SIZE_MODULUS dm). intros M H1 Hhalf HM.
  generalize dependent (sizeof_ptr dm). intros P HP H1.
  rewrite Z.mod_small by lia.
  destruct (Z.ltb_spec (P + size) (M / 2)); lia.
Qed.

Lemma get_free_block_misses st l sz :
  chain (heap st) (head st) l ->
  (forall a c, a ∈ l -> heap st !! a = Some c -> fits sz c = false) ->
  get_free_block sz st = Some (NULL, st).
Proof.
  intros Hc Hnone.
  destruct (get_free_block_on_chain st l sz Hc) as (r & Hg & Hff).
  destruct Hff as [[-> _] | (l1 & l2 & c & -> & _ & Hr & Hfit & _)]; [exact Hg|].
  rewrite (Hnone r c) in Hfit; [discriminate | | exact Hr].
  apply elem_of_app. right. left.
Qed.

Lemma malloc_grow_run dm size st :
  size <> 0 -> get_free_block size st = Some (NULL, st) ->
  sbrk_grants (to_intptr dm (wrap dm (sizeof_ptr dm + size))) st = true ->
  brk st <> NULL -> brk st <> SBRK_FAILED ->
  (tail st = NULL \/
   is_Some (<[brk st := Header size false NULL]> (heap st) !! tail st)) ->
  malloc dm size st = Some (brk st + sizeof_header_t dm, grown dm size st).
Proof.
  intros Hsz Hg Hgr Hb Hb' Ht. unfold malloc.
  destruct (Z.eqb_spec size 0) as [|_]; [contradiction|].
  set (st1 := log_event Locked st).
  run_with (eq_refl : pthread_mutex_lock st = Some (tt, st1)).
  run_with (get_free_block_frame size st st1 NULL eq_refl eq_refl Hg).
  change (negb (NULL =? NULL)) with false. cbv iota.
  set (incr := to_intptr dm (wrap dm (sizeof_ptr dm + size))) in *.
  run_with (sbrk_granted incr st1 Hgr).
  change (brk st1) with (brk st).
  destruct (Z.eqb_spec (brk st) SBRK_FAILED) as [|_]; [contradiction|].
  set (st2 := set_brk (brk st + incr) st1).
  run_with (store_run (brk st) (Header size false NULL) st2 Hb).
  set (st3 := set_heap (<[brk st := Header size false NULL]> (heap st2)) st2).
  run_with (eq_refl : gets head st3 = Some (head st, st3)).
  unfold grown. fold incr.
  destruct (Z.eqb_spec (head st) NULL) as [Hh|Hh].
  - set (st4 := set_head (brk st) st3).
    run_with (eq_refl : modify (set_head (brk st)) st3 = Some (tt, st4)).
    run_with (eq_refl : gets tail st4 = Some (tail st, st4)).
    destruct (Z.eqb_spec (tail st) NULL) as [Htn|Htn]; simpl negb; cbv iota.
    + reflexivity.
    + destruct Ht as [|[t Ht]]; [contradiction|].
      run_with (store_next_run (tail st) (brk st) st4 t Htn Ht).
      rewrite Ht. reflexivity.
  - run_with (eq_refl : ret tt st3 = Some (tt, st3)).
    run_with (eq_refl : gets tail st3 = Some (tail st, st3)).
    destruct (Z.eqb_spec (tail st) NULL) as [Htn|Htn]; simpl negb; cbv iota.
    + reflexivity.
    + destruct Ht as [|[t Ht]]; [contradiction|].
      run_with (store_next_run (tail st) (brk st) st3 t Htn Ht).
      rewrite Ht. reflexivity.
Qed.

Lemma free_mark_run dm block st h :
  block <> NULL -> block - sizeof_header_t dm <> NULL ->
  heap st !! (block - sizeof_header_t dm) = Some h ->
  block + s_size h <> brk st ->
  free dm block st = Some (tt, marked (block - sizeof_header_t dm) h st).
Proof.
  intros Hb Ha Hh Hne. unfold free.
  destruct (Z.eqb_spec block NULL) as [|_]; [contradiction|].
  set (st1 := log_event Locked st).
  run_with (eq_refl : pthread_mutex_lock st = Some (tt, st1)).
  run_with (sbrk_query st1).
  run_with (load_run (block - sizeof_header_t dm) st1 h Ha Hh).
  change (brk st1) with (brk st).
  destruct (Z.eqb_spec (block + s_size h) (brk st)) as [|_]; [contradiction|].
  run_with (store_is_free_run (block - sizeof_header_t dm) true st1 h Ha Hh).
  reflexivity.
Qed.

(** ** The two paths of [malloc] on a list *)

(** X1: in a state whose headers share no byte, when the first record
    in list order that is free and large enough is [r], [malloc] returns
    the pointer behind [r]'s header, whatever the break limit.  Only [r]'s flag changes: the record keeps
    its full size and its link, the list is the same list, and the break
    does not move. *)
Theorem malloc_reuses_first_fit dm st l1 r l2 c size :
  size <> 0 ->
  block_list st (l1 ++ r :: l2) ->
  separated dm (heap st) ->
  heap st !! r = Some c -> fits size c = true ->
  (forall b c', b ∈ l1 -> heap st !! b = Some c' -> fits size c' = false) ->
  exists st', malloc dm size st = Some (r + sizeof_header_t dm, st') /\
              heap st' = <[r := Header (s_size c) false (s_next c)]> (heap st) /\
              head st' = head st /\ tail st' = tail st /\ brk st' = brk st /\
              block_list st' (l1 ++ r :: l2).
Proof.
  intros Hsz [Hch Ht] _ Hr Hfit Hnone.
  assert (Hrn : r <> NULL).
  { eapply chain_lookup; [exact Hch|]. apply elem_of_app. right. left. }
  exists (reused r c st). split.
  - apply malloc_hit_run; auto.
    eapply get_free_block_finds; eauto.
  - repeat split; auto. simpl.
    apply chain_insert_same_next with (c := c); auto.
Qed.

Lemma malloc_reuses_first_fit_witness :
  exists st', malloc LP64 20 three_blocks = Some (4120 + sizeof_header_t LP64, st') /\
              heap st' = <[4120 := Header 32 false 4160]> (heap three_blocks) /\
              head st' = 4096 /\ tail st' = 4160 /\ brk st' = 4184 /\
              block_list st' ([4096] ++ 4120 :: [4160]).
Proof.
  apply (malloc_reuses_first_fit LP64 three_blocks [4096] 4120 [4160]
           (Header 32 true 4160) 20).
  - discriminate.
  - exact three_blocks_list.
  - exact three_blocks_separated.
  - reflexivity.
  - reflexivity.
  - intros b c' Hb Hc'. apply list_elem_of_singleton in Hb as ->.
    vm_compute in Hc'. injection Hc' as <-. reflexivity.
Defined.

(** The list after [malloc] has carved a block at the break. *)
Lemma grown_list dm st l size :
  block_list st l -> brk st ∉ l -> brk st <> NULL ->
  heap (grown dm size st) !! brk st = Some (Header size false NULL) /\
  block_list (grown dm size st) (l ++ [brk st]) /\
  relinked (delete (brk st) (heap st)) (delete (brk st) (heap (grown dm size st))).
Proof.
  intros Hl Hbl Hb. set (b := brk st) in *. set (c1 := Header size false NULL).
  unfold grown. fold b. fold c1. unfold block_list. simpl. rewrite last_one.
  destruct (Z.eqb_spec (tail st) NULL) as [Ht|Ht].
  - pose proof (block_list_tail_null _ _ Hl Ht) as ->.
    destruct Hl as [Hc _]. apply chain_empty_head in Hc. rewrite Hc. simpl.
    split; [apply lookup_insert_eq|]. split; [split; [|reflexivity]|].
    + apply (chain_cons _ b c1); [exact Hb | apply lookup_insert_eq | constructor].
    + intros a. rewrite delete_insert_eq.
      destruct (delete b (heap st) !! a) as [c|]; eauto.
  - destruct (block_list_tail _ _ Hl Ht) as (l' & ->).
    destruct Hl as [Hc _].
    assert (Hin : tail st ∈ l' ++ [tail st]) by (apply elem_of_app; right; left).
    destruct (chain_lookup _ _ _ _ Hc Hin) as [_ [tc Htc]].
    assert (Htb : tail st <> b) by (intros E; apply Hbl; rewrite <- E; exact Hin).
    rewrite lookup_insert_ne by congruence. rewrite Htc.
    assert (Hhd : head st <> NULL).
    { apply (chain_nonempty_head _ _ _ Hc). destruct l'; discriminate. }
    destruct (Z.eqb_spec (head st) NULL) as [|_]; [contradiction|].
    split; [rewrite lookup_insert_ne by exact Htb; apply lookup_insert_eq|].
    split; [split; [|reflexivity]|].
    + rewrite <- app_assoc. simpl.
      apply chain_append; [exact Hc | exact Htc | exact Hb | exact Hbl | reflexivity].
    + intros a. destruct (decide (a = b)) as [->|Hab].
      { rewrite !lookup_delete_eq. reflexivity. }
      rewrite !lookup_delete_ne by congruence.
      destruct (decide (a = tail st)) as [->|Hat].
      * rewrite Htc, lookup_insert_eq. eauto.
      * rewrite lookup_insert_ne by congruence.
        rewrite lookup_insert_ne by congruence.
        destruct (heap st !! a) as [c|]; eauto.
Qed.

(** X2: on a list below a positive break, in a state whose headers share
    no byte and end at or below the break, when no record is free and large enough and the environment grants the
    growth, [malloc] writes a record [{size, not free, NULL}] at the old
    break, links it behind the old tail, and returns the address a header
    size above the old break; the break moves by what was asked of
    [sbrk], and every other record keeps its size and flag.  Free blocks
    that are each too small are left alone, whatever their total. *)
Theorem malloc_appends_block dm st l size :
  size <> 0 ->
  block_list st l ->
  separated dm (heap st) -> ends_below dm (heap st) (brk st) -> 0 < brk st ->
  (forall a c, a ∈ l -> heap st !! a = Some c -> fits size c = false) ->
  sbrk_grants (to_intptr dm (wrap dm (sizeof_ptr dm + size))) st = true ->
  exists st', malloc dm size st = Some (brk st + sizeof_header_t dm, st') /\
              heap st' !! brk st = Some (Header size false NULL) /\
              block_list st' (l ++ [brk st]) /\
              brk st' = brk st + to_intptr dm (wrap dm (sizeof_ptr dm + size)) /\
              relinked (delete (brk st) (heap st)) (delete (brk st) (heap st')).
Proof.
  intros Hsz Hl _ Hends Hpos Hnone Hgr.
  assert (Hbl : brk st ∉ l).
  { intros Hin. destruct (chain_lookup _ _ _ _ (proj1 Hl) Hin) as [_ Hs].
    apply Hends in Hs. destruct (sizeof_ptr_lt_header dm). lia. }
  assert (Hb : brk st <> NULL) by (unfold NULL; lia).
  destruct (grown_list dm st l size Hl Hbl Hb) as (Hnew & Hlist & Hrel).
  exists (grown dm size st). split; [|auto].
  apply malloc_grow_run; auto.
  - eapply get_free_block_misses; [apply Hl | exact Hnone].
  - unfold SBRK_FAILED. lia.
  - destruct (Z.eq_dec (tail st) NULL) as [Ht|Ht]; [left; exact Ht | right].
    destruct (block_list_tail _ _ Hl Ht) as (l' & ->).
    assert (Hin : tail st ∈ l' ++ [tail st]) by (apply elem_of_app; right; left).
    destruct (chain_lookup _ _ _ _ (proj1 Hl) Hin) as [_ Hs].
    rewrite lookup_insert_ne; [exact Hs|].
    intros E. apply Hbl. rewrite E. exact Hin.
Qed.

Lemma malloc_appends_block_witness :
  exists st', malloc LP64 40 three_blocks = Some (4184 + sizeof_header_t LP64, st') /\
              heap st' !! 4184 = Some (Header 40 false NULL) /\
              block_list st' ([4096; 4120; 4160] ++ [4184]) /\
              brk st' = 4184 + to_intptr LP64 (wrap LP64 (sizeof_ptr LP64 + 40)) /\
              relinked (delete 4184 (heap three_blocks)) (delete 4184 (heap st')).
Proof.
  apply (malloc_appends_block LP64 three_blocks [4096; 4120; 4160] 40).
  - discriminate.
  - exact three_blocks_list.
  - exact three_blocks_separated.
  - exact three_blocks_ends_below.
  - reflexivity.
  - intros a c Ha Hc.
    repeat (apply elem_of_cons in Ha as [->|Ha];
            [vm_compute in Hc; injection Hc as <-; reflexivity|]).
    inversion Ha.
  - reflexivity.
Defined.

(** ** What [malloc] returns *)

Lemma get_free_block_loop_sound m sz : forall fuel a r,
  get_free_block_loop fuel m sz a = Some r ->
  r = NULL \/ exists c, m !! r = Some c /\ fits sz c = true.
Proof.
  induction fuel as [|fuel IH]; intros a r H; [discriminate|].
  simpl in H. destruct (Z.eqb_spec a NULL) as [|_].
  { injection H as <-. left. reflexivity. }
  destruct (m !! a) as [c|] eqn:Hc; [|discriminate].
  fold (fits sz c) in H. destruct (fits sz c) eqn:Hfit.
  - injection H as <-. right. eauto.
  - eapply IH, H.
Qed.

Lemma get_free_block_result sz st r st' :
  get_free_block sz st = Some (r, st') ->
  st' = st /\
  (r = NULL \/
   exists c, heap st !! r = Some c /\ s_is_free c = true /\ sz <= s_size c).
Proof.
  intros H. apply get_free_block_Some in H as [-> H]. split; [reflexivity|].
  apply get_free_block_loop_sound in H as [-> | (c & Hc & Hfit)]; [left; reflexivity|].
  right. exists c. unfold fits in Hfit. apply andb_prop in Hfit as [Hf Hle].
  apply Z.leb_le in Hle. auto.
Qed.

(** X3: whatever the state of the list, also a list with a cycle, a
    record [get_free_block] returns is free and at least as large as the
    request, and the search changes nothing. *)
Theorem get_free_block_sound sz st r st' :
  get_free_block sz st = Some (r, st') ->
  st' = st /\
  (r = NULL \/
   exists c, heap st !! r = Some c /\ s_is_free c = true /\ sz <= s_size c).
Proof. exact (get_free_block_result sz st r st'). Qed.

Lemma get_free_block_sound_witness :
  three_blocks = three_blocks /\
  (4120 = NULL \/
   exists c, heap three_blocks !! 4120 = Some c /\ s_is_free c = true /\
             20 <= s_size c).
Proof.
  apply (get_free_block_sound 20 three_blocks 4120 three_blocks). reflexivity.
Defined.

Lemma malloc_returns_record dm size st p st' :
  malloc dm size st = Some (p, st') -> p <> NULL ->
  exists c, heap st' !! (p - sizeof_header_t dm) = Some c /\
            s_is_free c = false /\ size <= s_size c.
Proof.
  intros H Hp.
  apply malloc_inv in H
    as [(_ & E & _) | [(h & c & _ & Hh & Hg & Hc & -> & ->)
       | [(_ & _ & E & _) | (_ & _ & Hb & _ & _ & -> & ->)]]];
    [contradiction | | contradiction |].
  - rewrite Z.add_simpl_r.
    exists (Header (s_size c) false (s_next c)).
    split; [apply lookup_insert_eq|]. split; [reflexivity|]. simpl.
    apply get_free_block_result in Hg as [_ [E | (c' & Hc' & _ & Hle)]];
      [contradiction|]. congruence.
  - rewrite Z.add_simpl_r. unfold grown. simpl.
    set (c1 := Header size false NULL).
    destruct (tail st =? NULL).
    { exists c1. split; [apply lookup_insert_eq|]. split; [reflexivity | simpl; lia]. }
    destruct (decide (tail st = brk st)) as [->|Hne].
    + rewrite lookup_insert_eq.
      eexists. split; [apply lookup_insert_eq|]. split; [reflexivity | simpl; lia].
    + destruct (<[brk st := c1]> (heap st) !! tail st) as [t|].
      * rewrite lookup_insert_ne by exact Hne.
        exists c1. split; [apply lookup_insert_eq|]. split; [reflexivity | simpl; lia].
      * exists c1. split; [apply lookup_insert_eq|]. split; [reflexivity | simpl; lia].
Qed.

(** X4: when the header [tail] points to shares no byte with a header at
    the break, behind every non-null pointer [malloc] returns there is a
    header that is not flagged free and whose size is at least the
    request (exactly the request for a new block, possibly more for a
    reused one). *)
Theorem malloc_result_header dm size st p st' :
  tail_clear dm st ->
  malloc dm size st = Some (p, st') -> p <> NULL ->
  exists c, heap st' !! (p - sizeof_header_t dm) = Some c /\
            s_is_free c = false /\ size <= s_size c.
Proof. intros _. exact (malloc_returns_record dm size st p st'). Qed.

Lemma malloc_result_header_witness :
  exists c, heap (reused 4120 (Header 32 true 4160) three_blocks)
              !! (4144 - sizeof_header_t LP64) = Some c /\
            s_is_free c = false /\ 20 <= s_size c.
Proof.
  apply (malloc_result_header LP64 20 three_blocks 4144).
  - exact three_blocks_tail_clear.
  - vm_compute. reflexivity.
  - discriminate.
Defined.

(** ** The lock, the limit and the break across a call *)

Lemma malloc_inv_env dm size st p st' :
  malloc dm size st = Some (p, st') ->
  lock_log st' = lock_log st ++ lock_use (Malloc size) /\
  brk_limit st' = brk_limit st /\
  (brk st' = brk st \/
   brk st' = brk st + to_intptr dm (wrap dm (sizeof_ptr dm + size))).
Proof.
  unfold malloc, lock_use. destruct (Z.eqb_spec size 0) as [->|Hnz].
  { intros [= <- <-]. rewrite app_nil_r. auto. }
  intros H.
  apply bind_Some in H as ([] & st1 & [= <-] & H).
  apply bind_Some in H as (h & st1' & Hg & H).
  apply get_free_block_Some in Hg as [-> _].
  destruct (Z.eqb_spec h NULL) as [Hh|Hh]; simpl negb in H; cbv iota in H.
  - apply bind_Some in H as (block & st2 & Hs & H).
    assert (E2 : lock_log st2 = lock_log st ++ [Locked] /\
                 brk_limit st2 = brk_limit st /\
                 (brk st2 = brk st \/
                  brk st2 = brk st + to_intptr dm (wrap dm (sizeof_ptr dm + size)))).
    { apply sbrk_Some in Hs as [(_ & _ & ->) | (_ & _ & ->)]; simpl; auto. }
    clear Hs. destruct E2 as (El & Em & Eb).
    destruct (block =? SBRK_FAILED).
    + apply bind_Some in H as ([] & st3 & [= <-] & [= <- <-]).
      simpl. rewrite El, <- app_assoc. auto.
    + apply bind_Some in H as ([] & st3 & Hst & H).
      apply store_Some in Hst as [_ ->].
      apply bind_Some in H as (hd & st4 & [= <- <-] & H).
      apply bind_Some in H as ([] & st5 & Hhd & H).
      assert (E5 : lock_log st5 = lock_log st2 /\ brk_limit st5 = brk_limit st2 /\
                   brk st5 = brk st2).
      { simpl in Hhd. destruct (head st2 =? NULL); injection Hhd as <-; auto. }
      clear Hhd. destruct E5 as (El5 & Em5 & Eb5).
      apply bind_Some in H as (tl & st6 & [= <- <-] & H).
      apply bind_Some in H as ([] & st7 & Htl & H).
      assert (E7 : lock_log st7 = lock_log st5 /\ brk_limit st7 = brk_limit st5 /\
                   brk st7 = brk st5).
      { destruct (negb (tail st5 =? NULL)).
        - apply store_next_Some in Htl as (t & _ & _ & ->). auto.
        - injection Htl as <-. auto. }
      clear Htl. destruct E7 as (El7 & Em7 & Eb7).
      apply bind_Some in H as ([] & st8 & [= <-] & H).
      apply bind_Some in H as ([] & st9 & [= <-] & [= <- <-]).
      simpl. rewrite El7, El5, El, <- app_assoc, Em7, Em5, Em, Eb7, Eb5. auto.
  - apply bind_Some in H as ([] & st2 & Hs & H).
    apply store_is_free_Some in Hs as (c & _ & _ & ->).
    apply bind_Some in H as ([] & st3 & [= <-] & [= <- <-]).
    simpl. rewrite <- app_assoc. auto.
Qed.

Lemma free_inv_env dm block st st' :
  free dm block st = Some (tt, st') ->
  lock_log st' = lock_log st ++ lock_use (Free block) /\
  brk_limit st' = brk_limit st.
Proof.
  intros H. unfold lock_use.
  apply free_inv in H as [[-> ->] | (h & Hb & _ & _ & [[_ ->] | (_ & R)])].
  - rewrite app_nil_r. auto.
  - destruct (Z.eqb_spec block NULL) as [|_]; [contradiction|].
    simpl. rewrite <- app_assoc. auto.
  - destruct (Z.eqb_spec block NULL) as [|_]; [contradiction|].
    destruct R as (st2 & h' & r & st3 & Hun & _ & Hs & ->).
    assert (E3 : lock_log st3 = lock_log st2 /\ brk_limit st3 = brk_limit st2).
    { apply sbrk_Some in Hs as [(_ & _ & ->) | (_ & _ & ->)]; auto. }
    destruct E3 as [El3 Em3].
    assert (E2 : lock_log st2 = lock_log st ++ [Locked] /\
                 brk_limit st2 = brk_limit st).
    { destruct (head st =? tail st).
      - subst st2. auto.
      - apply free_loop_globals in Hun as (_ & _ & Hm & Hl & _). auto. }
    destruct E2 as [El2 Em2].
    simpl. rewrite El3, El2, <- app_assoc, Em3, Em2. auto.
Qed.

(** X5: every call takes the lock at most once and gives it back before
    it returns, on each of its return paths; [malloc 0] and [free NULL]
    do not take it.  Over a run of calls the history of the lock is one
    [Locked], [Unlocked] pair per call that is not one of those two. *)
Theorem lock_taken_and_released dm cs : forall live st live' st',
  run dm cs live st = Some (live', st') ->
  lock_log st' = lock_log st ++ flat_map lock_use cs.
Proof.
  induction cs as [|[n|p] cs IH]; intros live st live' st' H; simpl in H.
  - injection H as _ <-. simpl. rewrite app_nil_r. reflexivity.
  - apply bind_Some in H as (q & st1 & Hm & H).
    apply IH in H. apply malloc_inv_env in Hm as (El & _).
    rewrite H, El. cbn [flat_map]. rewrite app_assoc. reflexivity.
  - destruct (bool_decide (p ∈ live)); [|discriminate].
    apply bind_Some in H as ([] & st1 & Hf & H).
    apply IH in H. apply free_inv_env in Hf as (El & _).
    rewrite H, El. cbn [flat_map]. rewrite app_assoc. reflexivity.
Qed.

Lemma lock_taken_and_released_witness :
  lock_log (state_after LP64 [Malloc 0; Malloc 16; Free 4120] (initial 4096 65536))
  = lock_log (initial 4096 65536)
    ++ flat_map lock_use [Malloc 0; Malloc 16; Free 4120].
Proof.
  apply (lock_taken_and_released LP64 [Malloc 0; Malloc 16; Free 4120] []
           (initial 4096 65536) []).
  vm_compute. reflexivity.
Defined.

(** ** What [free] leaves alone *)

Lemma relinked_refl m : relinked m m.
Proof. intros a. destruct (m !! a) as [c|]; eauto. Qed.

Lemma relinked_trans m1 m2 m3 : relinked m1 m2 -> relinked m2 m3 -> relinked m1 m3.
Proof.
  intros H12 H23 a. specialize (H12 a). specialize (H23 a).
  destruct (m1 !! a) as [c|].
  - destruct H12 as (c2 & E2 & Hs & Hf). rewrite E2 in H23.
    destruct H23 as (c3 & E3 & Hs3 & Hf3). exists c3. repeat split; congruence.
  - rewrite H12 in H23. exact H23.
Qed.

Lemma relinked_store_next m a c n :
  m !! a = Some c -> relinked m (<[a := Header (s_size c) (s_is_free c) n]> m).
Proof.
  intros Hc b. destruct (decide (b = a)) as [->|Hne].
  - rewrite Hc, lookup_insert_eq. eauto.
  - rewrite lookup_insert_ne by congruence. destruct (m !! b); eauto.
Qed.

Lemma free_loop_relinked fuel : forall tmp st st',
  free_loop fuel tmp st = Some (tt, st') -> relinked (heap st) (heap st').
Proof.
  induction fuel as [|fuel IH]; intros tmp st st' H; [discriminate|].
  simpl in H. destruct (Z.eqb_spec tmp NULL) as [->|Htmp].
  { injection H as <-. apply relinked_refl. }
  apply bind_Some in H as (t & st1 & Hl & H).
  apply load_Some in Hl as (_ & Ht & ->).
  apply bind_Some in H as (tl & st1 & [= <- <-] & H).
  apply bind_Some in H as ([] & st2 & Hup & H).
  apply bind_Some in H as (t' & st3 & Hl' & H).
  apply load_Some in Hl' as (_ & Ht' & ->).
  apply IH in H. eapply relinked_trans; [|exact H].
  destruct (s_next t =? tail st).
  - apply bind_Some in Hup as ([] & st4 & Hsn & [= <-]).
    apply store_next_Some in Hsn as (c & _ & Hc & ->). simpl.
    apply relinked_store_next, Hc.
  - injection Hup as <-. apply relinked_refl.
Qed.

(** The records after the truncating steps of [free]. *)
Lemma free_inv_release_relinked (st st2 : state) :
  (if head st =? tail st
   then st2 = set_tail NULL (set_head NULL (log_event Locked st))
   else free_loop (S (size (heap st))) (head st) (log_event Locked st)
        = Some (tt, st2)) ->
  relinked (heap st) (heap st2) /\ brk st2 = brk st.
Proof.
  destruct (head st =? tail st).
  - intros ->. split; [apply relinked_refl | reflexivity].
  - intros H. split.
    + apply free_loop_relinked in H. exact H.
    + apply free_loop_globals in H as (_ & Hb & _). exact Hb.
Qed.

(** X6: in a state whose headers share no byte, [free] neither creates
    nor drops a record, never changes a stored size, never clears a flag,
    and changes no flag other than that of the record behind the pointer
    it is given. *)
Theorem free_keeps_sizes dm block st st' a :
  separated dm (heap st) ->
  free dm block st = Some (tt, st') ->
  match heap st !! a with
  | Some c => exists c', heap st' !! a = Some c' /\
                         s_size c' = s_size c /\
                         (s_is_free c = true -> s_is_free c' = true) /\
                         (a <> block - sizeof_header_t dm ->
                          s_is_free c' = s_is_free c)
  | None => heap st' !! a = None
  end.
Proof.
  intros _ H.
  apply free_inv in H as [[_ ->] | (h & _ & _ & Hh & [[_ ->] | (_ & R)])].
  - destruct (heap st !! a) as [c|]; eauto.
  - simpl. destruct (decide (a = block - sizeof_header_t dm)) as [->|Hne].
    + rewrite Hh, lookup_insert_eq. eexists. split; [reflexivity|].
      simpl. repeat split; auto. intros E. contradiction.
    + rewrite lookup_insert_ne by congruence.
      destruct (heap st !! a) as [c|]; eauto.
  - destruct R as (st2 & h' & r & st3 & Hun & _ & Hs & ->).
    apply free_inv_release_relinked in Hun as [Hrel _].
    assert (E3 : heap st3 = heap st2).
    { apply sbrk_Some in Hs as [(_ & _ & ->) | (_ & _ & ->)]; auto. }
    simpl. rewrite E3. specialize (Hrel a).
    destruct (heap st !! a) as [c|]; [|exact Hrel].
    destruct Hrel as (c' & Hc' & Hsz & Hfl). exists c'.
    repeat split; auto. congruence.
Qed.

Lemma free_keeps_sizes_witness :
  match heap three_blocks !! 4160 with
  | Some c => exists c', heap (marked 4096 (Header 16 false 4120) three_blocks)
                           !! 4160 = Some c' /\
                         s_size c' = s_size c /\
                         (s_is_free c = true -> s_is_free c' = true) /\
                         (4160 <> 4120 - sizeof_header_t LP64 ->
                          s_is_free c' = s_is_free c)
  | None => heap (marked 4096 (Header 16 false 4120) three_blocks) !! 4160 = None
  end.
Proof.
  apply (free_keeps_sizes LP64 4120 three_blocks).
  - exact three_blocks_separated.
  - vm_compute. reflexivity.
Defined.

Lemma sbrk_lower_only incr st r st' :
  incr <= 0 -> sbrk incr st = Some (r, st') -> brk st' = brk st + incr.
Proof.
  intros Hle H. rewrite (sbrk_lower incr st Hle) in H. injection H as _ <-.
  reflexivity.
Qed.

(** X7: on any list, well formed or not, whose headers share no byte,
    whether [free] moves the break depends only on the record behind the
    pointer: when its block ends at the break the break drops by header
    size plus stored size, and otherwise the break stays.  The stored
    size is one whose block fits in half the address space. *)
Theorem free_break dm block st st' h :
  separated dm (heap st) ->
  free dm block st = Some (tt, st') -> block <> NULL ->
  heap st !! (block - sizeof_header_t dm) = Some h ->
  0 <= s_size h -> sizeof_header_t dm + s_size h <= SIZE_MODULUS dm / 2 ->
  brk st' = if block + s_size h =? brk st
            then brk st - (sizeof_header_t dm + s_size h)
            else brk st.
Proof.
  intros _ H Hb Hh Hs0 Hs1.
  apply free_inv in H as [[E _] | (h0 & _ & _ & Hh0 & [[Hne ->] | (Heq & R)])];
    [contradiction | |]; rewrite Hh in Hh0; injection Hh0 as <-.
  - destruct (Z.eqb_spec (block + s_size h) (brk st)); [contradiction | reflexivity].
  - destruct (Z.eqb_spec (block + s_size h) (brk st)) as [_|]; [|contradiction].
    destruct R as (st2 & h' & r & st3 & Hun & Hh' & Hs & ->).
    apply free_inv_release_relinked in Hun as [Hrel Hb2].
    specialize (Hrel (block - sizeof_header_t dm)). rewrite Hh in Hrel.
    destruct Hrel as (c' & Hc' & Hsz & _). rewrite Hh' in Hc'. injection Hc' as <-.
    rewrite Hsz in Hs. rewrite (release_increment dm (s_size h) Hs0 Hs1) in Hs.
    apply sbrk_lower_only in Hs.
    + simpl. rewrite Hs, Hb2. lia.
    + destruct (sizeof_ptr_lt_header dm). lia.
Qed.

Lemma free_break_witness :
  brk (marked 4096 (Header 16 false 4120) three_blocks)
  = if 4120 + s_size (Header 16 false 4120) =? brk three_blocks
    then brk three_blocks - (sizeof_header_t LP64 + s_size (Header 16 false 4120))
    else brk three_blocks.
Proof.
  apply (free_break LP64 4120 three_blocks).
  - exact three_blocks_separated.
  - vm_compute. reflexivity.
  - discriminate.
  - reflexivity.
  - simpl. lia.
  - vm_compute. discriminate.
Defined.

(** X8: a second [free] of a pointer whose block does not end at the
    break goes unnoticed: it succeeds and leaves the records, [head],
    [tail] and the break as the first [free] left them. *)
Theorem double_free_unnoticed dm block st st1 h :
  block <> NULL ->
  heap st !! (block - sizeof_header_t dm) = Some h ->
  block + s_size h <> brk st ->
  free dm block st = Some (tt, st1) ->
  exists st2, free dm block st1 = Some (tt, st2) /\
              heap st2 = heap st1 /\ head st2 = head st1 /\
              tail st2 = tail st1 /\ brk st2 = brk st1.
Proof.
  intros Hb Hh Hne H.
  pose proof (free_marks dm _ _ _ _ Hb Hh Hne H) as ->.
  set (a := block - sizeof_header_t dm) in *.
  set (h1 := Header (s_size h) true (s_next h)).
  assert (Ha : a <> NULL).
  { apply free_inv in H as [[E _] | (h0 & _ & Ha & _)]; [contradiction | exact Ha]. }
  assert (Hh1 : heap (marked a h st) !! a = Some h1) by apply lookup_insert_eq.
  exists (marked a h1 (marked a h st)). split.
  - apply free_mark_run; auto.
  - repeat split. simpl. apply insert_insert_eq.
Qed.

Lemma double_free_unnoticed_witness :
  exists st2, free LP64 4120 (marked 4096 (Header 16 false 4120) three_blocks)
              = Some (tt, st2) /\
              heap st2 = heap (marked 4096 (Header 16 false 4120) three_blocks) /\
              head st2 = 4096 /\ tail st2 = 4160 /\ brk st2 = 4184.
Proof.
  apply (double_free_unnoticed LP64 4120 three_blocks
           (marked 4096 (Header 16 false 4120) three_blocks)
           (Header 16 false 4120)).
  - discriminate.
  - reflexivity.
  - vm_compute. discriminate.
  - vm_compute. reflexivity.
Defined.

(** ** The size passed to [sbrk] *)

(** X9: for a request that, with a pointer, stays below half the address
    space, [malloc] never lowers the break, whatever path it takes. *)
Theorem malloc_never_lowers_break dm size st p st' :
  0 <= size -> sizeof_ptr dm + size < SIZE_MODULUS dm / 2 ->
  malloc dm size st = Some (p, st') ->
  brk st <= brk st'.
Proof.
  intros H0 H1 H.
  apply malloc_inv_env in H as (_ & _ & [-> | ->]); [lia|].
  rewrite (grow_increment dm size H0 H1).
  destruct (sizeof_ptr_lt_header dm). lia.
Qed.

Lemma malloc_never_lowers_break_witness :
  brk three_blocks <= brk (grown LP64 40 three_blocks).
Proof.
  apply (malloc_never_lowers_break LP64 40 three_blocks
           (4184 + sizeof_header_t LP64)).
  - lia.
  - vm_compute. reflexivity.
  - vm_compute. reflexivity.
Defined.

Lemma huge_increment dm size :
  SIZE_MODULUS dm / 2 <= sizeof_ptr dm + size < SIZE_MODULUS dm ->
  to_intptr dm (wrap dm (sizeof_ptr dm + size))
  = sizeof_ptr dm + size - SIZE_MODULUS dm.
Proof.
  intros H.
  destruct (SIZE_MODULUS_pos dm) as [Hhalf HM].
  unfold to_intptr, wrap.
  generalize dependent (SIZE_MODULUS dm). intros M H Hhalf HM.
  generalize dependent (sizeof_ptr dm). intros P H.
  rewrite Z.mod_small by lia.
  destruct (Z.ltb_spec (P + size) (M / 2)); lia.
Qed.

Lemma wrapped_increment dm size :
  SIZE_MODULUS dm <= sizeof_ptr dm + size -> size < SIZE_MODULUS dm ->
  to_intptr dm (wrap dm (sizeof_ptr dm + size))
  = sizeof_ptr dm + size - SIZE_MODULUS dm.
Proof.
  intros H1 H2.
  destruct (SIZE_MODULUS_pos dm) as [Hhalf HM].
  assert (HP : 0 < sizeof_ptr dm < SIZE_MODULUS dm / 2)
    by (destruct dm; vm_compute; split; reflexivity).
  unfold to_intptr, wrap.
  generalize dependent (SIZE_MODULUS dm). intros M H1 H2 Hhalf HM HP.
  generalize dependent (sizeof_ptr dm). intros P H1 HP.
  assert (E : (P + size) mod M = P + size - M).
  { symmetry. apply (Z.mod_unique_pos _ _ 1); lia. }
  rewrite E. destruct (Z.ltb_spec (P + size - M) (M / 2)); lia.
Qed.

(** X10: the sum of pointer size and request is not checked for
    overflow.  For a request within a pointer size of the largest
    [size_t] value, the sum wraps: a granted miss moves the break by
    fewer bytes than a pointer has, and [malloc] still returns a pointer,
    a header size above the old break, to a block recorded with the full
    request (the header [tail] points to sharing no byte with the new
    one). *)
Theorem malloc_size_overflow dm size st p st' :
  tail_clear dm st ->
  SIZE_MODULUS dm <= sizeof_ptr dm + size -> size < SIZE_MODULUS dm ->
  get_free_block size st = Some (NULL, st) ->
  malloc dm size st = Some (p, st') -> p <> NULL ->
  0 <= brk st' - brk st < sizeof_ptr dm /\
  p = brk st + sizeof_header_t dm /\
  exists c, heap st' !! (p - sizeof_header_t dm) = Some c /\ size <= s_size c.
Proof.
  intros _ H1 H2 Hmiss H Hp.
  destruct (malloc_returns_record dm size st p st' H Hp) as (c & Hc & _ & Hle).
  destruct (malloc_carves_pointer_size dm size st p st' H Hp Hmiss) as [Hb ->].
  rewrite (wrapped_increment dm size H1 H2) in Hb.
  split; [lia|]. split; [reflexivity|]. eauto.
Qed.

Lemma malloc_size_overflow_witness :
  let size := SIZE_MODULUS LP64 - 5 in
  0 <= brk (grown LP64 size (initial 4096 65536)) - brk (initial 4096 65536)
    < sizeof_ptr LP64 /\
  4120 = brk (initial 4096 65536) + sizeof_header_t LP64 /\
  exists c, heap (grown LP64 size (initial 4096 65536))
              !! (4120 - sizeof_header_t LP64) = Some c /\ size <= s_size c.
Proof.
  apply (malloc_size_overflow LP64 (SIZE_MODULUS LP64 - 5) (initial 4096 65536) 4120).
  - left. reflexivity.
  - vm_compute. discriminate.
  - vm_compute. reflexivity.
  - reflexivity.
  - vm_compute. reflexivity.
  - discriminate.
Defined.

(** X11: a request of half the address space or more (short of the
    wrapping ones) reaches [sbrk] as a negative amount: when such a call
    returns a pointer, the break has been lowered. *)
Theorem malloc_huge_request_lowers_break dm size st p st' :
  SIZE_MODULUS dm / 2 <= sizeof_ptr dm + size < SIZE_MODULUS dm ->
  get_free_block size st = Some (NULL, st) ->
  malloc dm size st = Some (p, st') -> p <> NULL ->
  brk st' < brk st.
Proof.
  intros H1 Hmiss H Hp.
  destruct (malloc_carves_pointer_size dm size st p st' H Hp Hmiss) as [Hb _].
  rewrite (huge_increment dm size H1) in Hb. lia.
Qed.

Lemma malloc_huge_request_lowers_break_witness :
  brk (grown ILP32 2147483648 (initial 4096 65536)) < brk (initial 4096 65536).
Proof.
  apply (malloc_huge_request_lowers_break ILP32 2147483648 (initial 4096 65536) 4112).
  - vm_compute. split; [discriminate | reflexivity].
  - reflexivity.
  - vm_compute. reflexivity.
  - discriminate.
Defined.

(** ** The first version of [malloc] *)

Lemma naive_malloc_inv dm n st p st' :
  Naive.malloc dm n st = Some (p, st') ->
  head st' = head st /\ tail st' = tail st /\ heap st' = heap st /\
  lock_log st' = lock_log st /\
  (p <> NULL -> p = brk st /\ brk st' = brk st + to_intptr dm n).
Proof.
  unfold Naive.malloc. intros H.
  apply bind_Some in H as (block & st1 & Hs & H).
  apply sbrk_Some in Hs as [(_ & -> & ->) | (_ & -> & ->)].
  - destruct (brk st =? SBRK_FAILED); injection H as <- <-; simpl;
      repeat split; auto; contradiction.
  - change (negb (SBRK_FAILED =? SBRK_FAILED)) with false in H.
    injection H as <- <-. repeat split; auto; contradiction.
Qed.

(** X12: the first version of [malloc] hands out the break it finds and
    touches neither the list nor the lock, so two calls in a row that
    both succeed return adjacent blocks, the second starting where the
    first ends; after a request of size 0 the next call returns the same
    pointer again. *)
Theorem naive_malloc_adjacent dm n1 n2 st p1 st1 p2 st2 :
  0 <= n1 < SIZE_MODULUS dm / 2 ->
  Naive.malloc dm n1 st = Some (p1, st1) -> p1 <> NULL ->
  Naive.malloc dm n2 st1 = Some (p2, st2) -> p2 <> NULL ->
  p2 = p1 + n1 /\
  head st2 = head st /\ tail st2 = tail st /\ heap st2 = heap st /\
  lock_log st2 = lock_log st.
Proof.
  intros Hn H1 Hp1 H2 Hp2.
  apply naive_malloc_inv in H1 as (Hh1 & Ht1 & Hm1 & Hl1 & Hb1).
  apply naive_malloc_inv in H2 as (Hh2 & Ht2 & Hm2 & Hl2 & Hb2).
  destruct (Hb1 Hp1) as [-> Hbrk1]. destruct (Hb2 Hp2) as [-> _].
  assert (E : to_intptr dm n1 = n1).
  { unfold to_intptr. destruct (Z.ltb_spec n1 (SIZE_MODULUS dm / 2)); lia. }
  rewrite E in Hbrk1. repeat split; congruence.
Qed.

Lemma naive_malloc_adjacent_witness :
  4106 = 4096 + 10 /\
  head (set_brk 4126 (initial 4096 65536)) = NULL /\
  tail (set_brk 4126 (initial 4096 65536)) = NULL /\
  heap (set_brk 4126 (initial 4096 65536)) = ∅ /\
  lock_log (set_brk 4126 (initial 4096 65536)) = [].
Proof.
  apply (naive_malloc_adjacent LP64 10 20 (initial 4096 65536) 4096
           (set_brk 4106 (initial 4096 65536)) 4106
           (set_brk 4126 (initial 4096 65536))).
  - vm_compute. split; [discriminate | reflexivity].
  - reflexivity.
  - discriminate.
  - reflexivity.
  - discriminate.
Defined.

(** ** Round trips between [free] and [malloc] *)

(** X15: in a state whose headers share no byte, freeing a block of the
    list that does not end at the break and then asking for at most its
    size gives the same pointer back,
    provided no record ahead of it in the list is free and large enough.
    The break does not move, and the records end as they were before the
    [free], with the block flagged as in use. *)
Theorem free_then_malloc_round_trip dm st l1 r l2 c K :
  block_list st (l1 ++ r :: l2) ->
  separated dm (heap st) ->
  heap st !! r = Some c ->
  r + sizeof_header_t dm <> NULL ->
  r + sizeof_header_t dm + s_size c <> brk st ->
  0 < K <= s_size c ->
  (forall b c', b ∈ l1 -> heap st !! b = Some c' -> fits K c' = false) ->
  exists st1 st2,
    free dm (r + sizeof_header_t dm) st = Some (tt, st1) /\
    malloc dm K st1 = Some (r + sizeof_header_t dm, st2) /\
    brk st1 = brk st /\ brk st2 = brk st /\
    heap st2 = <[r := Header (s_size c) false (s_next c)]> (heap st) /\
    (s_is_free c = false -> heap st2 = heap st).
Proof.
  intros [Hch Ht] _ Hr Hp Hne HK Hnone.
  assert (Hrn : r <> NULL).
  { eapply chain_lookup; [exact Hch|]. apply elem_of_app. right. left. }
  assert (Hr1 : r ∉ l1).
  { apply chain_NoDup in Hch. apply NoDup_app in Hch as (_ & Hd & _).
    intros Hin. apply (Hd r Hin). left. }
  set (p := r + sizeof_header_t dm) in *.
  assert (Ea : p - sizeof_header_t dm = r) by (unfold p; lia).
  set (c2 := Header (s_size c) true (s_next c)).
  set (st1 := marked r c st).
  assert (Hf : free dm p st = Some (tt, st1)).
  { unfold st1. rewrite <- Ea. apply free_mark_run; rewrite ?Ea; auto. }
  assert (Hg : get_free_block K st1 = Some (r, st1)).
  { apply (get_free_block_finds st1 l1 r l2 c2).
    - simpl. apply chain_insert_same_next with (c := c); auto.
    - apply lookup_insert_eq.
    - unfold fits. simpl. apply Z.leb_le. lia.
    - intros b c' Hb Hc'. apply (Hnone b); [exact Hb|].
      simpl in Hc'. rewrite lookup_insert_ne in Hc' by (intros <-; contradiction).
      exact Hc'. }
  exists st1, (reused r c2 st1). split; [exact Hf|]. split.
  - apply malloc_hit_run; auto; [lia | apply lookup_insert_eq].
  - split; [reflexivity|]. split; [reflexivity|].
    assert (E : heap (reused r c2 st1)
                = <[r := Header (s_size c) false (s_next c)]> (heap st))
      by (simpl; apply insert_insert_eq).
    split; [exact E|]. intros Hfree. rewrite E. apply insert_id.
    rewrite Hr. destruct c as [s f n]. simpl in Hfree. subst f. reflexivity.
Qed.

Lemma free_then_malloc_round_trip_witness :
  exists st1 st2,
    free LP64 (4096 + sizeof_header_t LP64) three_blocks = Some (tt, st1) /\
    malloc LP64 10 st1 = Some (4096 + sizeof_header_t LP64, st2) /\
    brk st1 = 4184 /\ brk st2 = 4184 /\
    heap st2 = <[4096 := Header 16 false 4120]> (heap three_blocks) /\
    (s_is_free (Header 16 false 4120) = false -> heap st2 = heap three_blocks).
Proof.
  apply (free_then_malloc_round_trip LP64 three_blocks [] 4096 [4120; 4160]
           (Header 16 false 4120) 10).
  - exact three_blocks_list.
  - exact three_blocks_separated.
  - reflexivity.
  - discriminate.
  - vm_compute. discriminate.
  - simpl. lia.
  - intros b c' Hb. inversion Hb.
Defined.

(** X16: in a state whose headers share no byte, taking a free block of
    the list that does not end at the break and freeing it again
    restores the records, [head], [tail] and the break exactly. *)
Theorem malloc_then_free_restores dm st l1 r l2 c size :
  size <> 0 ->
  block_list st (l1 ++ r :: l2) ->
  separated dm (heap st) ->
  heap st !! r = Some c -> fits size c = true ->
  (forall b c', b ∈ l1 -> heap st !! b = Some c' -> fits size c' = false) ->
  r + sizeof_header_t dm <> NULL ->
  r + sizeof_header_t dm + s_size c <> brk st ->
  exists st1 st2,
    malloc dm size st = Some (r + sizeof_header_t dm, st1) /\
    free dm (r + sizeof_header_t dm) st1 = Some (tt, st2) /\
    heap st2 = heap st /\ head st2 = head st /\ tail st2 = tail st /\
    brk st2 = brk st.
Proof.
  intros Hsz [Hch Ht] _ Hr Hfit Hnone Hp Hne.
  assert (Hrn : r <> NULL).
  { eapply chain_lookup; [exact Hch|]. apply elem_of_app. right. left. }
  set (p := r + sizeof_header_t dm) in *.
  assert (Ea : p - sizeof_header_t dm = r) by (unfold p; lia).
  set (c1 := Header (s_size c) false (s_next c)).
  set (st1 := reused r c st).
  assert (Hm : malloc dm size st = Some (p, st1)).
  { apply malloc_hit_run; auto. eapply get_free_block_finds; eauto. }
  assert (Hf : free dm p st1 = Some (tt, marked r c1 st1)).
  { rewrite <- Ea. apply free_mark_run; rewrite ?Ea; auto.
    apply lookup_insert_eq. }
  exists st1, (marked r c1 st1). split; [exact Hm|]. split; [exact Hf|].
  repeat split. simpl. rewrite insert_insert_eq. apply insert_id.
  rewrite Hr. destruct c as [s f n]. unfold fits in Hfit. simpl in *.
  apply andb_prop in Hfit as [-> _]. reflexivity.
Qed.

Lemma malloc_then_free_restores_witness :
  exists st1 st2,
    malloc LP64 20 three_blocks = Some (4120 + sizeof_header_t LP64, st1) /\
    free LP64 (4120 + sizeof_header_t LP64) st1 = Some (tt, st2) /\
    heap st2 = heap three_blocks /\ head st2 = 4096 /\ tail st2 = 4160 /\
    brk st2 = 4184.
Proof.
  apply (malloc_then_free_restores LP64 three_blocks [4096] 4120 [4160]
           (Header 32 true 4160) 20).
  - discriminate.
  - exact three_blocks_list.
  - exact three_blocks_separated.
  - reflexivity.
  - reflexivity.
  - intros b c' Hb Hc'. apply list_elem_of_singleton in Hb as ->.
    vm_compute in Hc'. injection Hc' as <-. reflexivity.
  - discriminate.
  - vm_compute. discriminate.
Defined.

(** ** Requests that leave room for a header *)

Lemma grown_records dm size st a c :
  heap (grown dm size st) !! a = Some c ->
  (a = brk st /\ s_size c = size) \/
  (exists c0, heap st !! a = Some c0 /\ s_size c = s_size c0).
Proof.
  unfold grown. simpl. set (c1 := Header size false NULL).
  assert (Hm1 : forall c', <[brk st := c1]> (heap st) !! a = Some c' ->
                 (a = brk st /\ s_size c' = size) \/
                 (exists c0, heap st !! a = Some c0 /\ s_size c' = s_size c0)).
  { intros c'. destruct (decide (a = brk st)) as [->|Hne].
    - rewrite lookup_insert_eq. intros [= <-]. left. auto.
    - rewrite lookup_insert_ne by congruence. intros E. right. eauto. }
  destruct (tail st =? NULL); [apply Hm1|].
  destruct (<[brk st := c1]> (heap st) !! tail st) as [t|] eqn:Ht; [|apply Hm1].
  destruct (decide (a = tail st)) as [->|Hne].
  - rewrite lookup_insert_eq. intros [= <-]. simpl. apply Hm1, Ht.
  - rewrite lookup_insert_ne by congruence. apply Hm1.
Qed.

Lemma carved_in_order_ends_below dm st :
  carved_in_order dm st -> ends_below dm (heap st) (brk st).
Proof.
  intros J a [c Hc]. destruct (J a c Hc) as [Hs Hb].
  destruct (sizeof_ptr_lt_header dm). lia.
Qed.

Lemma carved_in_order_no_block_at_break dm st :
  carved_in_order dm st -> no_block_at_break dm st.
Proof.
  intros J a c Hc. destruct (J a c Hc) as [Hs Hb].
  destruct (sizeof_ptr_lt_header dm). lia.
Qed.

Lemma malloc_carved_in_order dm size st p st' :
  roomy dm (Malloc size) ->
  carved_in_order dm st -> separated dm (heap st) ->
  malloc dm size st = Some (p, st') ->
  carved_in_order dm st' /\ separated dm (heap st') /\ brk st <= brk st'.
Proof.
  intros [Hr0 Hr1] J Hsep H.
  destruct (sizeof_ptr_lt_header dm) as [HP HH].
  assert (Hincr : to_intptr dm (wrap dm (sizeof_ptr dm + size))
                  = sizeof_ptr dm + size) by (apply grow_increment; lia).
  pose proof (malloc_inv_env _ _ _ _ _ H) as (_ & _ & Hbrk).
  rewrite Hincr in Hbrk.
  assert (Hmono : brk st <= brk st') by (destruct Hbrk as [-> | ->]; lia).
  assert (Hold : forall a c0, heap st !! a = Some c0 ->
            sizeof_header_t dm - sizeof_ptr dm <= s_size c0 /\
            (brk st' = a + sizeof_ptr dm + s_size c0 \/
             a + sizeof_ptr dm + s_size c0 + sizeof_header_t dm <= brk st')).
  { intros a c0 Hc0. destruct (J a c0 Hc0) as [Hs Hb]. split; [exact Hs|].
    destruct Hbrk as [-> | ->]; [exact Hb|]. right. lia. }
  apply malloc_inv in H
    as [(_ & _ & ->) | [(h & c & _ & _ & _ & Hc & _ & ->)
       | [(_ & _ & _ & _ & _ & Hm) | (_ & _ & _ & _ & _ & _ & ->)]]].
  - auto.
  - split; [|split; [|exact Hmono]].
    + intros a c'. simpl. destruct (decide (a = h)) as [->|Hne].
      * rewrite lookup_insert_eq. intros [= <-]. simpl. exact (J h c Hc).
      * rewrite lookup_insert_ne by congruence. apply J.
    + intros a b Ha Hb. simpl in Ha, Hb. apply Hsep.
      * apply lookup_insert_is_Some in Ha as [<- | [_ Ha]]; [eauto | exact Ha].
      * apply lookup_insert_is_Some in Hb as [<- | [_ Hb]]; [eauto | exact Hb].
  - split; [|split; [|exact Hmono]].
    + intros a c Hc. rewrite Hm in Hc. exact (Hold a c Hc).
    + rewrite Hm. exact Hsep.
  - assert (Hkeys : forall a, is_Some (heap (grown dm size st) !! a) ->
                      a = brk st \/ is_Some (heap st !! a)).
    { intros a [c Hc]. apply grown_records in Hc as [[-> _] | (c0 & Hc0 & _)]; eauto. }
    assert (Hbelow : forall a, is_Some (heap st !! a) ->
                       a + sizeof_header_t dm <= brk st).
    { apply carved_in_order_ends_below, J. }
    split; [|split; [|exact Hmono]].
    + intros a c Hc.
      apply grown_records in Hc as [[-> Hs] | (c0 & Hc0 & Hs)]; rewrite Hs.
      * split; [exact Hr0|]. left. simpl. rewrite Hincr. lia.
      * exact (Hold a c0 Hc0).
    + intros a b Ha Hb Hne.
      apply Hkeys in Ha as [-> | Ha]; apply Hkeys in Hb as [-> | Hb].
      * contradiction.
      * apply Hbelow in Hb. lia.
      * apply Hbelow in Ha. lia.
      * apply Hsep; assumption.
Qed.

Lemma free_carved_in_order dm block st st' :
  carved_in_order dm st -> separated dm (heap st) ->
  free dm block st = Some (tt, st') ->
  carved_in_order dm st' /\ separated dm (heap st') /\ brk st' = brk st.
Proof.
  intros J Hsep H.
  apply free_inv in H as [[_ ->] | (h & _ & _ & Hh & [[_ ->] | (Heq & _)])].
  - auto.
  - split; [|split; [|reflexivity]].
    + intros a c'. simpl.
      destruct (decide (a = block - sizeof_header_t dm)) as [->|Hne].
      * rewrite lookup_insert_eq. intros [= <-]. simpl. exact (J _ h Hh).
      * rewrite lookup_insert_ne by congruence. apply J.
    + intros a b Ha Hb. simpl in Ha, Hb. apply Hsep.
      * apply lookup_insert_is_Some in Ha as [<- | [_ Ha]]; [eauto | exact Ha].
      * apply lookup_insert_is_Some in Hb as [<- | [_ Hb]]; [eauto | exact Hb].
  - exfalso. apply (carved_in_order_no_block_at_break dm st J _ h Hh). lia.
Qed.

(** X18: starting from an empty list, when every request is at least
    header size - pointer size bytes large (16 bytes under LP64, 12 under
    ILP32) and the client frees pointers it holds, no two headers ever
    share a byte, every header ends at or below the break, and no block
    ever ends at the break: [free] flags every block it is given, the
    branch that returns memory is never taken, and the break never falls
    below its first value. *)
Theorem roomy_requests_never_release dm base limit cs live' st' :
  Forall (roomy dm) cs ->
  run dm cs [] (initial base limit) = Some (live', st') ->
  separated dm (heap st') /\ ends_below dm (heap st') (brk st') /\
  no_block_at_break dm st' /\ base <= brk st'.
Proof.
  assert (G : forall cs live st live' st',
             carved_in_order dm st -> separated dm (heap st) ->
             Forall (roomy dm) cs ->
             run dm cs live st = Some (live', st') ->
             carved_in_order dm st' /\ separated dm (heap st') /\
             brk st <= brk st').
  { clear. induction cs as [|[n|p] cs IH]; intros live st live' st' J Hsep Hm H;
      simpl in H.
    - injection H as _ <-. split; [exact J|]. split; [exact Hsep | lia].
    - apply Forall_cons in Hm as [Hn Hm].
      apply bind_Some in H as (q & st1 & H1 & H).
      destruct (malloc_carved_in_order dm n st q st1 Hn J Hsep H1) as (J1 & S1 & B1).
      destruct (IH _ _ _ _ J1 S1 Hm H) as (J2 & S2 & B2).
      split; [exact J2|]. split; [exact S2 | lia].
    - apply Forall_cons in Hm as [_ Hm].
      destruct (bool_decide (p ∈ live)); [|discriminate].
      apply bind_Some in H as ([] & st1 & H1 & H).
      destruct (free_carved_in_order dm p st st1 J Hsep H1) as (J1 & S1 & B1).
      destruct (IH _ _ _ _ J1 S1 Hm H) as (J2 & S2 & B2).
      split; [exact J2|]. split; [exact S2 | lia]. }
  intros Hm H.
  destruct (G cs [] (initial base limit) live' st') as (J & S & B); auto.
  - intros a c Hc. simpl in Hc. rewrite lookup_empty in Hc. discriminate.
  - intros a b [c Hc]. simpl in Hc. rewrite lookup_empty in Hc. discriminate.
  - split; [exact S|]. split; [apply carved_in_order_ends_below, J|].
    split; [apply carved_in_order_no_block_at_break, J | exact B].
Qed.

Lemma roomy_requests_never_release_witness :
  let st' := state_after LP64 [Malloc 16; Malloc 32; Malloc 16; Free 4144; Malloc 40]
               (initial 4096 65536) in
  separated LP64 (heap st') /\ ends_below LP64 (heap st') (brk st') /\
  no_block_at_break LP64 st' /\ 4096 <= brk st'.
Proof.
  apply (roomy_requests_never_release LP64 4096 65536
           [Malloc 16; Malloc 32; Malloc 16; Free 4144; Malloc 40]
           [4208; 4184; 4120]).
  - repeat (apply List.Forall_cons; [|]); try apply List.Forall_nil;
      try exact I; (split; [vm_compute; discriminate | vm_compute; reflexivity]).
  - vm_compute. reflexivity.
Defined.

(** ** A list with a cycle *)

Lemma get_free_block_loop_on_cycle m sz (S : Z -> Prop) :
  (forall a, S a -> a <> NULL /\
                    exists c, m !! a = Some c /\ fits sz c = false /\ S (s_next c)) ->
  forall fuel a, S a -> get_free_block_loop fuel m sz a = None.
Proof.
  intros Hclosed. induction fuel as [|fuel IH]; intros a Ha; [reflexivity|].
  destruct (Hclosed a Ha) as (Hn & c & Hc & Hfit & Hnext). simpl.
  destruct (Z.eqb_spec a NULL) as [|_]; [contradiction|].
  rewrite Hc. fold (fits sz c). rewrite Hfit. apply IH, Hnext.
Qed.

(** X17: when the links from [head] never leave a set of records none of
    which is free and large enough, as on a list that runs into a cycle,
    the search yields no result after any number of steps, and a
    non-zero [malloc] of that size never returns. *)
Theorem search_on_cycle_never_ends st sz (S : Z -> Prop) :
  S (head st) ->
  (forall a, S a ->
     a <> NULL /\
     exists c, heap st !! a = Some c /\ fits sz c = false /\ S (s_next c)) ->
  (forall fuel, get_free_block_loop fuel (heap st) sz (head st) = None) /\
  get_free_block sz st = None /\
  (forall dm, sz <> 0 -> malloc dm sz st = None).
Proof.
  intros Hhead Hclosed.
  pose proof (get_free_block_loop_on_cycle (heap st) sz S Hclosed) as Hloop.
  split; [intros fuel; apply Hloop, Hhead|].
  assert (Hg : forall st1, head st1 = head st -> heap st1 = heap st ->
                           get_free_block sz st1 = None).
  { intros st1 Hh Hm. unfold get_free_block. rewrite Hh, Hm.
    rewrite (Hloop _ _ Hhead). reflexivity. }
  split; [apply Hg; reflexivity|].
  intros dm Hsz. unfold malloc.
  destruct (Z.eqb_spec sz 0) as [|_]; [contradiction|].
  run_with (eq_refl : pthread_mutex_lock st = Some (tt, log_event Locked st)).
  unfold bind. rewrite (Hg (log_event Locked st)) by reflexivity. reflexivity.
Qed.

Lemma search_on_cycle_never_ends_witness :
  let st := state_after LP64 [Malloc 16; Malloc 16; Malloc 8; Free 4144; Malloc 32]
              (initial 4096 65536) in
  (forall fuel, get_free_block_loop fuel (heap st) 8 (head st) = None) /\
  get_free_block 8 st = None /\
  (forall dm, 8 <> 0 -> malloc dm 8 st = None).
Proof.
  intros st.
  apply (search_on_cycle_never_ends st 8 (fun a => a = 4096 \/ a = 4120)).
  - left. reflexivity.
  - intros a [-> | ->]; (split; [discriminate|]).
    + exists (Header 16 false 4120).
      split; [vm_compute; reflexivity|]. split; [reflexivity|]. right. reflexivity.
    + exists (Header 32 false 4120).
      split; [vm_compute; reflexivity|]. split; [reflexivity|]. right. reflexivity.
Defined.
